(** * asynclog: the per-thread input ring and the thread-local holder

    A shallow embedding of [src/input.cpp] (class [thread_input_buffer]) and
    of [include/asynclog/detail/thread_object.hpp] (class template
    [thread_object]), with the properties of the design document stated and
    settled against it.

    Conventions.
    - [std::size_t] is a 64-bit unsigned integer and [std::ptrdiff_t] a
      64-bit signed one (LP64); both are carried in [Z] with the wrap-around
      written out ([wrap64], [sint64]).
    - A [char*] is its address, a [Z]; [nullptr] is [0].
    - Process memory is byte addressed: a finite map from addresses to byte
      values.  A pointer-sized store writes eight bytes, little endian.
    - Calls into collaborators (the log facade, the wake-up event, [free])
      are recorded, in program order, in a call log carried by the state. *)

From Stdlib Require Import ZArith Lia List.
From stdpp Require Import gmap list.

Local Open Scope Z_scope.

(** ** Machine arithmetic *)

Module Machine.

Definition word_bits : Z := 64.
Definition modulus : Z := 2 ^ word_bits.
Definition half_modulus : Z := 2 ^ (word_bits - 1).

(** Conversion to [std::size_t]: reduction modulo [2^64]. *)
Definition wrap64 (z : Z) : Z := z mod modulus.

(** Conversion to [std::ptrdiff_t]: the two's complement reading. *)
Definition sint64 (z : Z) : Z :=
  let w := wrap64 z in
  if w <? half_modulus then w else w - modulus.

(** [~x] on a [std::size_t]. *)
Definition not64 (x : Z) : Z := wrap64 (Z.lnot x).

(** [p - q] on two [char*]: a [std::ptrdiff_t]. *)
Definition ptrdiff (p q : Z) : Z := sint64 (p - q).

(** [p + n] on a [char*] and a [std::size_t]. *)
Definition ptradd (p n : Z) : Z := wrap64 (p + n).

(** The idiom [(size + mask) & ~mask] on [std::size_t] operands. *)
Definition round_with_mask (mask size : Z) : Z :=
  Z.land (wrap64 (size + mask)) (not64 mask).

(** Little-endian bytes of a machine word. *)
Fixpoint le_bytes (n : nat) (w : Z) : list Z :=
  match n with
  | O => []
  | S n' => (w mod 256) :: le_bytes n' (w / 256)
  end.

Fixpoint le_value (bs : list Z) : Z :=
  match bs with
  | [] => 0
  | b :: bs' => b + 256 * le_value bs'
  end.

Fixpoint store_bytes (m : gmap Z Z) (a : Z) (bs : list Z) : gmap Z Z :=
  match bs with
  | [] => m
  | b :: bs' => store_bytes (<[a := b]> m) (a + 1) bs'
  end.

Fixpoint load_bytes (m : gmap Z Z) (a : Z) (n : nat) : option (list Z) :=
  match n with
  | O => Some []
  | S n' =>
      match m !! a, load_bytes m (a + 1) n' with
      | Some b, Some bs => Some (b :: bs)
      | _, _ => None
      end
  end.

(** [*reinterpret_cast<W*>(a) = w] for a pointer-sized [W]. *)
Definition store_word (m : gmap Z Z) (a w : Z) : gmap Z Z :=
  store_bytes m a (le_bytes 8 (wrap64 w)).

(** [*reinterpret_cast<W*>(a)] for a pointer-sized [W]; [None] when some of
    the eight bytes was never written. *)
Definition load_word (m : gmap Z Z) (a : Z) : option Z :=
  le_value <$> load_bytes m a 8.

(** The least multiple of [a] that is at least [s], for positive [a]: the
    design document's [ceil(s, a)]. *)
Definition ceil_multiple (a s : Z) : Z := a * ((s + a - 1) / a).

End Machine.

Export Machine.

(** ** The thread input buffer ([src/input.cpp]) *)

Module Ring.

(** Calls that leave the class, in program order. *)
Inductive call : Type :=
| CallCommit      (* plog_->commit() *)
| CallEventWait   (* input_consumed_event_.wait() *)
| CallEventSignal (* input_consumed_event_.signal() *)
| CallFree (p : Z) (* free(p) *).

Global Instance call_eq_dec : EqDecision call.
Proof. solve_decision. Defined.

(** The data members of [thread_input_buffer], followed by the two pieces of
    the surrounding process the member functions touch: the memory they
    write to and the log of their outgoing calls.

    The member declarations live in [asynclog.hpp], which is not among the
    sources at hand.  [size_] and [frame_alignment_mask_] are initialised
    from [std::size_t] constructor arguments and only ever combined with
    [std::size_t] values; they are taken to be [std::size_t].  [pbegin_],
    [pinput_start_] (atomic), [pinput_end_] and [pcommit_end_] are [char*]. *)
Record thread_input_buffer : Type := mk_buffer {
  plog_ : Z;
  size_ : Z;
  frame_alignment_mask_ : Z;
  pbegin_ : Z;
  pinput_start_ : Z;
  pinput_end_ : Z;
  pcommit_end_ : Z;
  memory : gmap Z Z;
  calls : list call
}.

Definition set_pinput_start (p : Z) (b : thread_input_buffer) :=
  mk_buffer (plog_ b) (size_ b) (frame_alignment_mask_ b) (pbegin_ b)
            p (pinput_end_ b) (pcommit_end_ b) (memory b) (calls b).

Definition set_pinput_end (p : Z) (b : thread_input_buffer) :=
  mk_buffer (plog_ b) (size_ b) (frame_alignment_mask_ b) (pbegin_ b)
            (pinput_start_ b) p (pcommit_end_ b) (memory b) (calls b).

Definition set_pcommit_end (p : Z) (b : thread_input_buffer) :=
  mk_buffer (plog_ b) (size_ b) (frame_alignment_mask_ b) (pbegin_ b)
            (pinput_start_ b) (pinput_end_ b) p (memory b) (calls b).

Definition set_memory (m : gmap Z Z) (b : thread_input_buffer) :=
  mk_buffer (plog_ b) (size_ b) (frame_alignment_mask_ b) (pbegin_ b)
            (pinput_start_ b) (pinput_end_ b) (pcommit_end_ b) m (calls b).

Definition record_call (c : call) (b : thread_input_buffer) :=
  mk_buffer (plog_ b) (size_ b) (frame_alignment_mask_ b) (pbegin_ b)
            (pinput_start_ b) (pinput_end_ b) (pcommit_end_ b) (memory b)
            (calls b ++ [c]).

(** Exceptions the constructor can let through. *)
Inductive ctor_error : Type :=
| RuntimeError (* std::runtime_error("cannot allocate input frame") *).

(** [allocate_buffer].  [rc] and [pbuffer] are what [posix_memalign] hands
    back: its return code and the pointer it stored. *)
Definition allocate_buffer (rc pbuffer : Z) : ctor_error + Z :=
  if negb (rc =? 0) then inl RuntimeError else inr pbuffer.

(** The constructor.  The mem-initialisers are transcribed one for one:
    [frame_alignment_mask_(frame_alignment)]. *)
Definition thread_input_buffer_ctor
    (plog size frame_alignment : Z) (rc pbuffer : Z) (m : gmap Z Z)
  : ctor_error + thread_input_buffer :=
  match allocate_buffer rc pbuffer with
  | inl e => inl e
  | inr pbegin =>
      inr (mk_buffer plog size frame_alignment pbegin
                     pbegin pbegin pbegin m [])
  end.

(** The state right after a constructor whose allocation succeeded. *)
Definition fresh (plog size frame_alignment pbuffer : Z) (m : gmap Z Z)
  : thread_input_buffer :=
  mk_buffer plog size frame_alignment pbuffer pbuffer pbuffer pbuffer m [].

(** Modelled from the spec: [is_power_of_two], which the constructor
    asserts of [frame_alignment], lives in [asynclog/detail/utility.hpp]; the
    design document says of it only that the alignment is a power of two. *)
Definition is_power_of_two (v : Z) : bool :=
  (0 <? v) && (Z.land v (v - 1) =? 0).

(** [advance_frame_pointer].  [remaining] is [auto] of
    [size_ - (p - pbegin_)]: a [std::size_t] minus a [std::ptrdiff_t], hence
    a [std::size_t]. *)
Definition advance_remaining (b : thread_input_buffer) (p distance : Z) : Z :=
  let p := ptradd p distance in
  wrap64 (size_ b - wrap64 (ptrdiff p (pbegin_ b))).

(** The condition of [assert(remaining >= 0)]. *)
Definition advance_assertion (b : thread_input_buffer) (p distance : Z) : bool :=
  0 <=? advance_remaining b p distance.

Definition advance_frame_pointer (b : thread_input_buffer) (p distance : Z) : Z :=
  let p := ptradd p distance in
  let remaining := wrap64 (size_ b - wrap64 (ptrdiff p (pbegin_ b))) in
  if remaining =? 0 then pbegin_ b else p.

Definition signal_input_consumed (b : thread_input_buffer) : thread_input_buffer :=
  record_call CallEventSignal b.

(** [discard_input_frame]: the returned pointer and the state after. *)
Definition discard_input_frame (b : thread_input_buffer) (size : Z)
  : Z * thread_input_buffer :=
  let mask := frame_alignment_mask_ b in
  let size := round_with_mask mask size in
  let p := pinput_start_ b in
  let p := advance_frame_pointer b p size in
  let b := set_pinput_start p b in
  let b := signal_input_consumed b in
  (p, b).

(** Modelled from the spec: [log_base::commit] is the log facade's, outside
    the sources at hand.  Its contract: publish the frames written so far
    and advance the ring's [pcommit_end] to [pinput_end]. *)
Definition commit (b : thread_input_buffer) : thread_input_buffer :=
  record_call CallCommit (set_pcommit_end (pinput_end_ b) b).

(** [wait_input_consumed], up to and including the call of
    [input_consumed_event_.wait()].  What the consumer does while the
    producer sits in that call is supplied by the caller's schedule. *)
Definition wait_input_consumed (b : thread_input_buffer) : thread_input_buffer :=
  let b := if pcommit_end_ b =? pinput_start_ b then commit b else b in
  record_call CallEventWait b.

(** The buffer [[pbegin_, pbegin_ + size_)] is not empty, lies in the address
    space together with its one-past-the-end address, and is no larger than
    [PTRDIFF_MAX]. *)
Definition buffer_in_range (b : thread_input_buffer) : Prop :=
  0 <= pbegin_ b /\ 0 < size_ b < half_modulus /\
  pbegin_ b + size_ b < modulus.

(** [p] points inside the buffer. *)
Definition inside (b : thread_input_buffer) (p : Z) : Prop :=
  pbegin_ b <= p < pbegin_ b + size_ b.

(** [b'] has the layout of [b]: same base, same size, same mask. *)
Definition same_layout (b b' : thread_input_buffer) : Prop :=
  pbegin_ b' = pbegin_ b /\ size_ b' = size_ b /\
  frame_alignment_mask_ b' = frame_alignment_mask_ b.

(** Neither the head nor the tail sits at the one-past-the-end address. *)
Definition never_at_end (b : thread_input_buffer) : Prop :=
  pinput_start_ b <> pbegin_ b + size_ b /\
  pinput_end_ b <> pbegin_ b + size_ b.

(** How often a call log has the producer wait on the event. *)
Definition count_waits (cs : list call) : nat :=
  count_occ call_eq_dec cs CallEventWait.

(** The call log releases no memory. *)
Definition no_free (cs : list call) : Prop :=
  forall p, ~ In (CallFree p) cs.

Section WithMarker.

(** [WRAPAROUND_MARKER], a constant of [asynclog.hpp]: some reserved value of
    the dispatch-pointer type. *)
Variable WRAPAROUND_MARKER : Z.

(** The condition of the debug-build assertion in [wraparound]. *)
Definition wraparound_assertion (b : thread_input_buffer) : bool :=
  bool_decide (load_word (memory b) (pinput_start_ b)
               = Some (wrap64 WRAPAROUND_MARKER)).

Definition wraparound (b : thread_input_buffer) : Z * thread_input_buffer :=
  let b := set_pinput_start (pbegin_ b) b in
  (pbegin_ b, b).

(** One turn of the [while(true)] of [allocate_input_frame], with [size]
    already rounded: [Some (address, state)] when the turn returns, [None]
    when it falls through to [wait_input_consumed].  The two asserts at the
    top of the loop body are debugging checks, absent under [NDEBUG]; the
    turn is taken as it runs when they pass or are compiled out. *)
Definition allocate_turn (b : thread_input_buffer) (size : Z)
  : option (Z * thread_input_buffer) :=
  let pinput_end := pinput_end_ b in
  let pinput_start := pinput_start_ b in
  let free := ptrdiff pinput_start pinput_end in
  if 0 <? free then
    if size <? wrap64 free then
      Some (pinput_end,
            set_pinput_end (advance_frame_pointer b pinput_end size) b)
    else None
  else
    let free1 := wrap64 (size_ b - wrap64 (ptrdiff pinput_end (pbegin_ b))) in
    if size <? free1 then
      Some (pinput_end,
            set_pinput_end (advance_frame_pointer b pinput_end size) b)
    else
      let free2 := wrap64 (ptrdiff pinput_start (pbegin_ b)) in
      if size <? free2 then
        let b := set_memory
                   (store_word (memory b) (pinput_end_ b) WRAPAROUND_MARKER) b in
        Some (pbegin_ b,
              set_pinput_end (advance_frame_pointer b (pbegin_ b) size) b)
      else None.

(** What the consumer thread can do to the ring. *)
Inductive consumer_op : Type :=
| Discard (size : Z)
| Wraparound.

Definition consumer_step (b : thread_input_buffer) (op : consumer_op)
  : thread_input_buffer :=
  match op with
  | Discard size => snd (discard_input_frame b size)
  | Wraparound => snd (wraparound b)
  end.

Definition consumer_run (b : thread_input_buffer) (ops : list consumer_op)
  : thread_input_buffer :=
  fold_left consumer_step ops b.

(** The consumer's side of a producer call: for each time the producer
    blocks in [input_consumed_event_.wait()], the operations the consumer
    performs before the producer runs again.  Once the schedule is
    exhausted the consumer does nothing more, and a producer that blocks
    stays blocked. *)
Definition schedule : Type := list (list consumer_op).

Inductive outcome (A : Type) : Type :=
| Returned (a : A) (b : thread_input_buffer) (rest : schedule)
| Blocked (b : thread_input_buffer).
Arguments Returned {A} a b rest.
Arguments Blocked {A} b.

Fixpoint allocate_loop (sched : schedule) (b : thread_input_buffer) (size : Z)
  : outcome Z :=
  match allocate_turn b size with
  | Some (p, b') => Returned p b' sched
  | None =>
      let b := wait_input_consumed b in
      match sched with
      | [] => Blocked b
      | ops :: sched' => allocate_loop sched' (consumer_run b ops) size
      end
  end.

Definition allocate_input_frame
    (b : thread_input_buffer) (size : Z) (sched : schedule) : outcome Z :=
  let mask := frame_alignment_mask_ b in
  let size := round_with_mask mask size in
  allocate_loop sched b size.

(** The destructor. *)
Fixpoint drain_loop (sched : schedule) (b : thread_input_buffer) : outcome unit :=
  if negb (pinput_start_ b =? pinput_end_ b) then
    let b := wait_input_consumed b in
    match sched with
    | [] => Blocked b
    | ops :: sched' => drain_loop sched' (consumer_run b ops)
    end
  else
    Returned tt (record_call (CallFree (pbegin_ b)) b) sched.

Definition thread_input_buffer_dtor (b : thread_input_buffer) (sched : schedule)
  : outcome unit :=
  drain_loop sched (commit b).

(** Calls made on the ring from outside, for statements about every
    sequence of operations. *)
Inductive ring_call : Type :=
| DoAllocate (size : Z) (sched : schedule)
| DoDiscard (size : Z)
| DoWraparound.

Definition outcome_state {A : Type} (o : outcome A) : thread_input_buffer :=
  match o with
  | Returned _ b _ => b
  | Blocked b => b
  end.

Definition outcome_value {A : Type} (o : outcome A) : option A :=
  match o with
  | Returned a _ _ => Some a
  | Blocked _ => None
  end.

(** State after a call, and the address it returned (if it returned). *)
Definition ring_step (b : thread_input_buffer) (c : ring_call)
  : option Z * thread_input_buffer :=
  match c with
  | DoAllocate size sched =>
      let o := allocate_input_frame b size sched in
      (outcome_value o, outcome_state o)
  | DoDiscard size =>
      let '(p, b') := discard_input_frame b size in (Some p, b')
  | DoWraparound =>
      let '(p, b') := wraparound b in (Some p, b')
  end.

Fixpoint ring_run (b : thread_input_buffer) (cs : list ring_call)
  : list (option Z) * thread_input_buffer :=
  match cs with
  | [] => ([], b)
  | c :: cs' =>
      let '(r, b') := ring_step b c in
      let '(rs, b'') := ring_run b' cs' in
      (r :: rs, b'')
  end.

(** *** Producer and consumer runs *)

(** The bytes handed out and not yet given back: from the head up to the
    tail, around the end of the buffer when the tail is below the head. *)
Definition unconsumed (b : thread_input_buffer) (x : Z) : Prop :=
  if pinput_start_ b <=? pinput_end_ b
  then pinput_start_ b <= x < pinput_end_ b
  else pinput_start_ b <= x < pbegin_ b + size_ b \/
       pbegin_ b <= x < pinput_end_ b.

(** The producer asks for frames of the given sizes, one after the other,
    while the consumer does nothing; [None] as soon as a request is not
    served at once.  The result lists the returned addresses. *)
Fixpoint produce (b : thread_input_buffer) (sizes : list Z)
  : option (list Z * thread_input_buffer) :=
  match sizes with
  | [] => Some ([], b)
  | s :: sizes' =>
      match allocate_input_frame b s [] with
      | Returned p b' _ =>
          match produce b' sizes' with
          | Some (ps, b'') => Some (p :: ps, b'')
          | None => None
          end
      | Blocked _ => None
      end
  end.

(** The consumer goes through frames given by address and requested size,
    oldest first: it calls [wraparound] when the next frame does not start
    at the head, expects the frame at the head, and calls
    [discard_input_frame] with the frame's size.  [None] when a frame is
    not where the head is. *)
Fixpoint consume (b : thread_input_buffer) (frames : list (Z * Z))
  : option thread_input_buffer :=
  match frames with
  | [] => Some b
  | (p, s) :: frames' =>
      let b := if pinput_start_ b =? p then b else snd (wraparound b) in
      if pinput_start_ b =? p
      then consume (snd (discard_input_frame b s)) frames'
      else None
  end.

(** The state after the producer has gone through [wait_input_consumed]
    once for every batch of [took], the consumer running the batch each
    time. *)
Definition after_waits (b : thread_input_buffer) (took : schedule)
  : thread_input_buffer :=
  fold_left (fun b ops => consumer_run (wait_input_consumed b) ops) took b.

(** How many of the operations are [discard_input_frame] calls. *)
Fixpoint count_discards (ops : list consumer_op) : nat :=
  match ops with
  | [] => O
  | Discard _ :: ops' => S (count_discards ops')
  | Wraparound :: ops' => count_discards ops'
  end.

End WithMarker.

Arguments Returned {A} a b rest.
Arguments Blocked {A} b.

End Ring.

(** ** The thread-local holder ([asynclog/detail/thread_object.hpp]) *)

Module ThreadObject.

(** [ENOMEM] of [<errno.h>] (Linux). *)
Definition ENOMEM : Z := 12.

(** What a call can throw. *)
Inductive exn : Type :=
| BadAlloc                 (* std::bad_alloc *)
| SystemError (code : Z)   (* std::system_error(code, std::system_category()) *)
| CtorFailure              (* whatever T's constructor throws *).

Inductive result : Type :=
| Ret (p : Z)
| Throw (e : exn)
| Done.

(** The part of the process the holder works on.
    - [slots]: the thread-specific values, by thread and key; an absent
      entry is a [NULL] value.
    - [objects]: the [holder] instances now alive on the heap, by address,
      each with its [key] member ([None] until it is assigned). *)
Record process : Type := mk_process {
  slots : gmap (nat * nat) Z;
  objects : gmap Z (option nat)
}.

(** A process in which no thread-specific value is set and no instance
    exists. *)
Definition boot : process := mk_process ∅ ∅.

(** The data members of a [thread_object] that matter here: its key.  The
    captured constructor arguments [args_] only feed [T]'s constructor. *)
Record thread_object : Type := mk_thread_object { key_ : nat }.

(** [pthread_getspecific(k)] on thread [t]. *)
Definition pthread_getspecific (p : process) (t k : nat) : Z :=
  default 0 (slots p !! (t, k)).

(** [pthread_setspecific(k, v)] on thread [t]; [rc] is the code the system
    gives when it cannot store the value.  By POSIX the call can run out of
    memory only when it has to associate a non-[NULL] value with the key;
    storing [NULL] under a valid key succeeds. *)
Definition pthread_setspecific (p : process) (t k : nat) (v rc : Z)
  : Z * process :=
  if v =? 0 then (0, mk_process (delete (t, k) (slots p)) (objects p))
  else if rc =? 0 then (0, mk_process (<[(t, k) := v]> (slots p)) (objects p))
  else (rc, p).

(** [create]: [new holder(args...)].  [nr] is what the [new]-expression
    yields: the address of the constructed instance, or the exception that
    left it. *)
Definition create (nr : exn + Z) (p : process) : exn + (Z * process) :=
  match nr with
  | inl e => inl e
  | inr a => inr (a, mk_process (slots p) (<[a := None]> (objects p)))
  end.

(** [p->key = k]. *)
Definition assign_key (a : Z) (k : nat) (p : process) : process :=
  mk_process (slots p) (<[a := Some k]> (objects p)).

Definition create_and_get (h : thread_object) (t : nat) (nr : exn + Z) (rc : Z)
    (p : process) : result * process :=
  match create nr p with
  | inl e => (Throw e, p)
  | inr (a, p) =>
      let p := assign_key a (key_ h) p in
      let '(res, p) := pthread_setspecific p t (key_ h) a rc in
      if res =? 0 then (Ret a, p)
      else if res =? ENOMEM then (Throw BadAlloc, p)
      else (Throw (SystemError res), p)
  end.

Definition get (h : thread_object) (t : nat) (nr : exn + Z) (rc : Z)
    (p : process) : result * process :=
  let a := pthread_getspecific p t (key_ h) in
  if negb (a =? 0) then (Ret a, p)
  else create_and_get h t nr rc p.

(** [destroy], the destructor function registered with the key, run on
    thread [t].  [None]: the process is gone ([raise(SIGSEGV)]), or the
    pointer does not lead to a live instance with a key. *)
Definition destroy (a : Z) (t : nat) (rc : Z) (p : process) : option process :=
  if a =? 0 then Some p
  else
    match objects p !! a with
    | Some (Some key) =>
        let '(res, p) := pthread_setspecific p t key a rc in
        if negb (res =? 0) then None
        else
          let p := mk_process (slots p) (delete a (objects p)) in
          Some (snd (pthread_setspecific p t key 0 0))
    | _ => None
    end.

(** What the threads library does for key [k] when thread [t] exits: a
    non-[NULL] value is replaced by [NULL] and handed to the destructor
    function. *)
Definition key_destructor (t k : nat) (rc : Z) (p : process) : option process :=
  let a := pthread_getspecific p t k in
  if a =? 0 then Some p
  else destroy a t rc (mk_process (delete (t, k) (slots p)) (objects p)).

(** Steps of a process that uses holders.  A thread that exits goes through
    [EvKeyDestructor] for its keys. *)
Inductive event : Type :=
| EvGet (h : thread_object) (t : nat) (nr : exn + Z) (rc : Z)
| EvKeyDestructor (t k : nat) (rc : Z).

Definition exec (p : process) (ev : event) : option (result * process) :=
  match ev with
  | EvGet h t nr rc => Some (get h t nr rc p)
  | EvKeyDestructor t k rc =>
      match key_destructor t k rc p with
      | Some p' => Some (Done, p')
      | None => None
      end
  end.

Fixpoint run (p : process) (evs : list event) : option (list result * process) :=
  match evs with
  | [] => Some ([], p)
  | ev :: evs' =>
      match exec p ev with
      | None => None
      | Some (r, p') =>
          match run p' evs' with
          | None => None
          | Some (rs, p'') => Some (r :: rs, p'')
          end
      end
  end.

(** The contract of the allocator: when [get] reaches the [new]-expression
    and that yields an address, the address is not [nullptr] and is not the
    address of an instance that is still alive. *)
Definition allocator_ok (p : process) (ev : event) : Prop :=
  match ev with
  | EvGet h t (inr a) _ =>
      pthread_getspecific p t (key_ h) = 0 -> a <> 0 /\ objects p !! a = None
  | _ => True
  end.

Fixpoint run_ok (p : process) (evs : list event) : Prop :=
  match evs with
  | [] => True
  | ev :: evs' =>
      allocator_ok p ev /\
      match exec p ev with
      | Some (_, p') => run_ok p' evs'
      | None => True
      end
  end.

(** Thread [t] goes through its exit processing for key [k] somewhere in
    [evs]. *)
Definition exits (t k : nat) (evs : list event) : Prop :=
  exists rc, In (EvKeyDestructor t k rc) evs.

(** Every thread-specific value that is set is the address of a live
    instance carrying the key it is stored under, and no two slots hold the
    same address. *)
Definition consistent (p : process) : Prop :=
  forall t k a, slots p !! (t, k) = Some a ->
    a <> 0 /\ objects p !! a = Some (Some k) /\
    forall t' k', slots p !! (t', k') = Some a -> (t', k') = (t, k).

(** *** The rest of the class *)

(** [pthread_key_delete(k)]: the values stored under [k] are no longer
    associated with anything; no destructor function is called. *)
Definition pthread_key_delete (p : process) (k : nat) : process :=
  mk_process (filter (fun kv : (nat * nat) * Z => snd (fst kv) <> k) (slots p))
             (objects p).

(** The destructor, run on thread [t]: the calling thread's instance is
    deleted ([delete] of [nullptr] does nothing), then the key.  The
    [assert] on the result of [pthread_key_delete] is taken to pass. *)
Definition thread_object_dtor (h : thread_object) (t : nat) (p : process)
  : process :=
  let a := pthread_getspecific p t (key_ h) in
  let p := mk_process (slots p)
                      (if a =? 0 then objects p else delete a (objects p)) in
  pthread_key_delete p (key_ h).

(** [make_index_sequence_helper<Pos, N, Seq...>::type], an index sequence
    being the list of its indices.  The partial specialisation
    [<N, N, Seq...>] ends the recursion of the primary template; [depth]
    bounds the depth of template instantiation. *)
Fixpoint make_index_sequence_helper (depth Pos N : nat) (Seq : list nat)
  : option (list nat) :=
  if Nat.eqb Pos N then Some Seq
  else
    match depth with
    | O => None
    | S depth' => make_index_sequence_helper depth' (S Pos) N (Seq ++ [Pos])
    end.

(** [make_index_sequence<N>::type]. *)
Definition make_index_sequence (depth N : nat) : option (list nat) :=
  make_index_sequence_helper depth 0 N [].

(** The pack expansion [std::get<Indexes>(args_)...] of [create]: the
    elements of the tuple at the given indices, in order. *)
Fixpoint expand_args {A : Type} (args_ : list A) (indexes : list nat)
  : option (list A) :=
  match indexes with
  | [] => Some []
  | i :: indexes' =>
      match nth_error args_ i, expand_args args_ indexes' with
      | Some x, Some xs => Some (x :: xs)
      | _, _ => None
      end
  end.

End ThreadObject.

(** * Properties *)

(** ** Machine arithmetic *)

Module MachineFacts.

Lemma modulus_value : modulus = 18446744073709551616.
Proof. reflexivity. Qed.

Lemma half_modulus_value : half_modulus = 9223372036854775808.
Proof. reflexivity. Qed.

Ltac machine :=
  unfold ptradd, ptrdiff, sint64, wrap64 in *;
  rewrite ?modulus_value, ?half_modulus_value in *.

Lemma wrap64_range z : 0 <= wrap64 z < modulus.
Proof. unfold wrap64. apply Z.mod_pos_bound. reflexivity. Qed.

Lemma wrap64_small z : 0 <= z < modulus -> wrap64 z = z.
Proof. intros H. unfold wrap64. now apply Z.mod_small. Qed.

Lemma wrap64_idem z : wrap64 (wrap64 z) = wrap64 z.
Proof. apply wrap64_small, wrap64_range. Qed.

Lemma wrap64_sint64 z : wrap64 (sint64 z) = wrap64 z.
Proof.
  unfold sint64. destruct (wrap64 z <? half_modulus).
  - apply wrap64_idem.
  - unfold wrap64. rewrite Zminus_mod, Z.mod_same, Z.sub_0_r, !Z.mod_mod;
      rewrite ?modulus_value; lia.
Qed.

Lemma sint64_small z : - half_modulus <= z < half_modulus -> sint64 z = z.
Proof.
  machine. intros H.
  destruct (Z.ltb_spec (z mod 18446744073709551616) 9223372036854775808);
    Z.div_mod_to_equations; lia.
Qed.

Lemma ptrdiff_small p q :
  - half_modulus <= p - q < half_modulus -> ptrdiff p q = p - q.
Proof. apply sint64_small. Qed.

Lemma wrap64_sub_ptrdiff s p q :
  wrap64 (s - wrap64 (ptrdiff p q)) = wrap64 (s - (p - q)).
Proof.
  unfold ptrdiff. rewrite wrap64_sint64. unfold wrap64.
  rewrite Zminus_mod_idemp_r. reflexivity.
Qed.

Lemma land_le_l x y : 0 <= x -> Z.land x y <= x.
Proof.
  intros Hx. pose proof (Z.sub_land_same_l x (Z.lnot y)) as E.
  rewrite Z.lnot_involutive in E.
  assert (0 <= Z.land x (Z.lnot y)) by (apply Z.land_nonneg; auto).
  lia.
Qed.

Lemma round_with_mask_range mask size :
  0 <= round_with_mask mask size < modulus.
Proof.
  unfold round_with_mask.
  pose proof (wrap64_range (size + mask)) as H.
  split.
  - apply Z.land_nonneg. left. lia.
  - pose proof (land_le_l (wrap64 (size + mask)) (not64 mask)). lia.
Qed.

Lemma wrap64_land_ones z : wrap64 z = Z.land z (Z.ones word_bits).
Proof. unfold wrap64, modulus. now rewrite Z.land_ones. Qed.

Lemma land_not64 x mask :
  0 <= x < modulus -> Z.land x (not64 mask) = Z.ldiff x mask.
Proof.
  intros Hx. unfold not64. rewrite wrap64_land_ones.
  rewrite (Z.land_comm (Z.lnot mask)), Z.land_assoc.
  rewrite <- wrap64_land_ones, (wrap64_small x Hx).
  now rewrite Z.ldiff_land.
Qed.

Lemma ceil_multiple_least a s :
  0 < a ->
  (a | ceil_multiple a s) /\ s <= ceil_multiple a s /\
  (forall m, (a | m) -> s <= m -> ceil_multiple a s <= m).
Proof.
  intros Ha. unfold ceil_multiple. split; [|split].
  - exists ((s + a - 1) / a). lia.
  - Z.div_mod_to_equations. nia.
  - intros m [k ->] Hk.
    assert ((s + a - 1) / a < k + 1); [|nia].
    apply Z.div_lt_upper_bound; nia.
Qed.

(** With the mask [2^k - 1] the idiom rounds up to a multiple of [2^k]. *)
Lemma round_with_mask_ones k s :
  0 <= k -> 0 <= s -> s + 2 ^ k - 1 < modulus ->
  round_with_mask (2 ^ k - 1) s = ceil_multiple (2 ^ k) s.
Proof.
  intros Hk Hs Hlt. unfold round_with_mask, ceil_multiple.
  assert (0 < 2 ^ k) by (apply Z.pow_pos_nonneg; lia).
  rewrite (wrap64_small (s + (2 ^ k - 1))) by lia.
  rewrite land_not64 by lia.
  replace (2 ^ k - 1) with (Z.ones k) at 2 by (rewrite Z.ones_equiv; lia).
  rewrite Z.ldiff_ones_r by lia.
  rewrite Z.shiftl_mul_pow2, Z.shiftr_div_pow2 by lia.
  replace (s + (2 ^ k - 1)) with (s + 2 ^ k - 1) by lia. lia.
Qed.

Lemma store_bytes_other bs : forall m a x,
  x < a \/ a + Z.of_nat (length bs) <= x ->
  store_bytes m a bs !! x = m !! x.
Proof.
  induction bs as [|b bs IH]; intros m a x Hx; simpl in *; [reflexivity|].
  rewrite IH by lia. apply lookup_insert_ne. lia.
Qed.

Lemma load_store_bytes bs : forall m a,
  load_bytes (store_bytes m a bs) a (length bs) = Some bs.
Proof.
  induction bs as [|b bs IH]; intros m a; simpl; [reflexivity|].
  rewrite IH, store_bytes_other by lia.
  now rewrite lookup_insert_eq.
Qed.

Lemma length_le_bytes n : forall w, length (le_bytes n w) = n.
Proof. induction n; intros w; simpl; auto. Qed.

Lemma le_value_le_bytes n : forall w,
  0 <= w -> le_value (le_bytes n w) = w mod 256 ^ Z.of_nat n.
Proof.
  induction n as [|n IH]; intros w Hw.
  - simpl. now rewrite Z.mod_1_r.
  - cbn [le_bytes le_value]. rewrite IH by (apply Z.div_pos; lia).
    rewrite Nat2Z.inj_succ, Z.pow_succ_r by lia.
    rewrite Z.rem_mul_r by (try apply Z.pow_nonzero; try apply Z.pow_pos_nonneg; lia).
    lia.
Qed.

Lemma load_store_word m a w :
  load_word (store_word m a w) a = Some (wrap64 w).
Proof.
  unfold load_word, store_word.
  pose proof (load_store_bytes (le_bytes 8 (wrap64 w)) m a) as H.
  rewrite length_le_bytes in H. rewrite H. cbn [fmap option_fmap option_map].
  f_equal. rewrite le_value_le_bytes by apply wrap64_range.
  change (256 ^ Z.of_nat 8) with modulus. apply wrap64_idem.
Qed.

Lemma store_word_other m a w x :
  x < a \/ a + 8 <= x -> store_word m a w !! x = m !! x.
Proof.
  intros H. unfold store_word. apply store_bytes_other.
  rewrite length_le_bytes. lia.
Qed.

End MachineFacts.

(** ** The thread input buffer *)

Module RingFacts.

Import Ring MachineFacts.

(** *** Layout is never touched *)

Lemma same_layout_refl b : same_layout b b.
Proof. repeat split. Qed.

Lemma same_layout_trans b1 b2 b3 :
  same_layout b1 b2 -> same_layout b2 b3 -> same_layout b1 b3.
Proof. unfold same_layout. intuition congruence. Qed.

Lemma wait_input_consumed_layout b : same_layout b (wait_input_consumed b).
Proof.
  unfold wait_input_consumed, same_layout.
  destruct (pcommit_end_ b =? pinput_start_ b); simpl; auto.
Qed.

Lemma wait_input_consumed_pointers b :
  pinput_start_ (wait_input_consumed b) = pinput_start_ b /\
  pinput_end_ (wait_input_consumed b) = pinput_end_ b.
Proof.
  unfold wait_input_consumed.
  destruct (pcommit_end_ b =? pinput_start_ b); simpl; auto.
Qed.

Lemma consumer_step_layout b op : same_layout b (consumer_step b op).
Proof. destruct op; repeat split. Qed.

Lemma consumer_run_layout ops : forall b, same_layout b (consumer_run b ops).
Proof.
  induction ops as [|op ops IH]; intros b; simpl.
  - apply same_layout_refl.
  - eapply same_layout_trans; [apply consumer_step_layout | apply IH].
Qed.

Lemma allocate_turn_layout M b size p b' :
  allocate_turn M b size = Some (p, b') -> same_layout b b'.
Proof.
  unfold allocate_turn. intros H.
  repeat match type of H with
         | context [if ?c then _ else _] => destruct c
         end; inversion H; subst; repeat split.
Qed.

Lemma allocate_loop_layout M size sched : forall b,
  same_layout b (outcome_state (allocate_loop M sched b size)).
Proof.
  induction sched as [|ops sched IH]; intros b; simpl.
  - destruct (allocate_turn M b size) as [[p b']|] eqn:E; simpl.
    + eapply allocate_turn_layout; eauto.
    + apply wait_input_consumed_layout.
  - destruct (allocate_turn M b size) as [[p b']|] eqn:E; simpl.
    + eapply allocate_turn_layout; eauto.
    + eapply same_layout_trans; [apply wait_input_consumed_layout|].
      eapply same_layout_trans; [apply consumer_run_layout | apply IH].
Qed.

Lemma ring_step_layout M b c : same_layout b (snd (ring_step M b c)).
Proof.
  destruct c; simpl.
  - apply allocate_loop_layout.
  - repeat split.
  - repeat split.
Qed.

(** *** [advance_frame_pointer] *)

Lemma advance_frame_pointer_in_range b p d :
  0 <= pbegin_ b -> 0 <= size_ b < modulus ->
  pbegin_ b + size_ b < modulus ->
  pbegin_ b <= p -> 0 <= d -> p + d <= pbegin_ b + size_ b ->
  advance_frame_pointer b p d =
    if p + d =? pbegin_ b + size_ b then pbegin_ b else p + d.
Proof.
  intros Hb Hs Hend Hp Hd Hfit. unfold advance_frame_pointer.
  rewrite wrap64_sub_ptrdiff.
  unfold ptradd. rewrite (wrap64_small (p + d)) by lia.
  rewrite wrap64_small by lia.
  destruct (Z.eqb_spec (size_ b - (p + d - pbegin_ b)) 0);
    destruct (Z.eqb_spec (p + d) (pbegin_ b + size_ b)); lia.
Qed.

Lemma advance_frame_pointer_not_end b p d :
  size_ b <> 0 -> advance_frame_pointer b p d <> pbegin_ b + size_ b.
Proof.
  intros Hs. unfold advance_frame_pointer.
  rewrite wrap64_sub_ptrdiff.
  destruct (Z.eqb_spec (wrap64 (size_ b - (ptradd p d - pbegin_ b))) 0) as [E|E].
  - lia.
  - intros Heq. apply E. rewrite Heq.
    replace (size_ b - (pbegin_ b + size_ b - pbegin_ b)) with 0 by lia.
    reflexivity.
Qed.

(** *** Head and tail stay off the end *)

Lemma never_at_end_layout b b' :
  same_layout b b' ->
  pinput_start_ b' = pinput_start_ b -> pinput_end_ b' = pinput_end_ b ->
  never_at_end b -> never_at_end b'.
Proof.
  unfold same_layout, never_at_end. intros (-> & -> & _) -> ->. auto.
Qed.

Lemma wait_input_consumed_never_at_end b :
  never_at_end b -> never_at_end (wait_input_consumed b).
Proof.
  apply never_at_end_layout.
  - apply wait_input_consumed_layout.
  - apply wait_input_consumed_pointers.
  - apply wait_input_consumed_pointers.
Qed.

Lemma discard_input_frame_never_at_end b size :
  size_ b <> 0 -> never_at_end b -> never_at_end (snd (discard_input_frame b size)).
Proof.
  intros Hs [_ He]. split; simpl; auto.
  now apply advance_frame_pointer_not_end.
Qed.

Lemma wraparound_never_at_end b :
  size_ b <> 0 -> never_at_end b -> never_at_end (snd (wraparound b)).
Proof. intros Hs [_ He]. split; simpl; auto. lia. Qed.

Lemma consumer_run_never_at_end ops : forall b,
  size_ b <> 0 -> never_at_end b -> never_at_end (consumer_run b ops).
Proof.
  induction ops as [|op ops IH]; intros b Hs Hb; simpl; auto.
  apply IH.
  - destruct (consumer_step_layout b op) as (_ & -> & _). exact Hs.
  - destruct op.
    + now apply discard_input_frame_never_at_end.
    + now apply wraparound_never_at_end.
Qed.

Lemma allocate_turn_never_at_end M b size p b' :
  size_ b <> 0 -> never_at_end b ->
  allocate_turn M b size = Some (p, b') -> never_at_end b'.
Proof.
  intros Hs [Hst He]. unfold allocate_turn. intros H.
  repeat match type of H with
         | context [if ?c then _ else _] => destruct c
         end; inversion H; subst; split; simpl; auto;
    first [ now apply advance_frame_pointer_not_end
          | now apply (advance_frame_pointer_not_end (set_memory _ b)) ].
Qed.

Lemma allocate_loop_never_at_end M size sched : forall b,
  size_ b <> 0 -> never_at_end b ->
  never_at_end (outcome_state (allocate_loop M sched b size)).
Proof.
  induction sched as [|ops sched IH]; intros b Hs Hb; simpl;
    destruct (allocate_turn M b size) as [[p b']|] eqn:E; simpl.
  - eapply allocate_turn_never_at_end; eauto.
  - now apply wait_input_consumed_never_at_end.
  - eapply allocate_turn_never_at_end; eauto.
  - apply IH.
    + destruct (consumer_run_layout ops (wait_input_consumed b)) as (_ & -> & _).
      destruct (wait_input_consumed_layout b) as (_ & -> & _). exact Hs.
    + apply consumer_run_never_at_end.
      * destruct (wait_input_consumed_layout b) as (_ & -> & _). exact Hs.
      * now apply wait_input_consumed_never_at_end.
Qed.

Lemma ring_step_never_at_end M b c :
  size_ b <> 0 -> never_at_end b -> never_at_end (snd (ring_step M b c)).
Proof.
  intros Hs Hb. destruct c; simpl.
  - now apply allocate_loop_never_at_end.
  - now apply discard_input_frame_never_at_end.
  - now apply wraparound_never_at_end.
Qed.

Lemma ring_run_never_at_end M cs : forall b,
  size_ b <> 0 -> never_at_end b -> never_at_end (snd (ring_run M b cs)).
Proof.
  induction cs as [|c cs IH]; intros b Hs Hb; simpl; auto.
  destruct (ring_step M b c) as [r b1] eqn:E1.
  destruct (ring_run M b1 cs) as [rs b2] eqn:E2. simpl.
  pose proof (ring_step_layout M b c) as HL.
  pose proof (ring_step_never_at_end M b c Hs Hb) as HN.
  rewrite E1 in HL, HN. simpl in HL, HN.
  specialize (IH b1). rewrite E2 in IH. apply IH; auto.
  destruct HL as (_ & -> & _). exact Hs.
Qed.

(** *** One turn of the allocation loop, on a ring in range *)

Lemma allocate_turn_in_range M b N :
  buffer_in_range b ->
  inside b (pinput_start_ b) -> inside b (pinput_end_ b) ->
  allocate_turn M b N =
    if pinput_end_ b <? pinput_start_ b then
      if N <? pinput_start_ b - pinput_end_ b then
        Some (pinput_end_ b,
              set_pinput_end (advance_frame_pointer b (pinput_end_ b) N) b)
      else None
    else if N <? size_ b - (pinput_end_ b - pbegin_ b) then
      Some (pinput_end_ b,
            set_pinput_end (advance_frame_pointer b (pinput_end_ b) N) b)
    else if N <? pinput_start_ b - pbegin_ b then
      Some (pbegin_ b,
            set_pinput_end (advance_frame_pointer b (pbegin_ b) N)
              (set_memory (store_word (memory b) (pinput_end_ b) M) b))
    else None.
Proof.
  intros (Hb & Hs & Hend) Hst He. unfold inside in *.
  rewrite half_modulus_value in Hs. rewrite modulus_value in Hend.
  unfold allocate_turn.
  rewrite wrap64_sub_ptrdiff.
  rewrite !ptrdiff_small by (rewrite half_modulus_value; lia).
  rewrite (wrap64_small (size_ b - _)) by (rewrite modulus_value; lia).
  rewrite (wrap64_small (pinput_start_ b - pbegin_ b))
    by (rewrite modulus_value; lia).
  destruct (Z.ltb_spec 0 (pinput_start_ b - pinput_end_ b));
    destruct (Z.ltb_spec (pinput_end_ b) (pinput_start_ b)); try lia.
  - rewrite wrap64_small by (rewrite modulus_value; lia). reflexivity.
  - reflexivity.
Qed.

Lemma allocate_input_frame_blocks M b s :
  allocate_turn M b (round_with_mask (frame_alignment_mask_ b) s) = None ->
  forall sched,
    allocate_input_frame M b s sched =
      match sched with
      | [] => Blocked (wait_input_consumed b)
      | ops :: sched' =>
          allocate_input_frame M (consumer_run (wait_input_consumed b) ops)
                               s sched'
      end.
Proof.
  intros H sched. unfold allocate_input_frame.
  destruct sched as [|ops sched']; simpl; rewrite H; [reflexivity|].
  destruct (consumer_run_layout ops (wait_input_consumed b)) as (_ & _ & ->).
  destruct (wait_input_consumed_layout b) as (_ & _ & ->).
  reflexivity.
Qed.

(** *** Calls made while waiting *)

Lemma consumer_run_calls ops : forall b,
  exists sigs, calls (consumer_run b ops) = calls b ++ sigs /\
               Forall (eq CallEventSignal) sigs.
Proof.
  induction ops as [|op ops IH]; intros b; simpl.
  - exists []. split; [now rewrite app_nil_r | constructor].
  - destruct (IH (consumer_step b op)) as (sigs & E & F).
    destruct op; simpl in *.
    + exists (CallEventSignal :: sigs). split.
      * rewrite E. simpl. now rewrite <- app_assoc.
      * now constructor.
    + exists sigs. split; auto.
Qed.

Lemma consumer_run_pbegin ops b : pbegin_ (consumer_run b ops) = pbegin_ b.
Proof. apply consumer_run_layout. Qed.

Lemma wait_input_consumed_calls b :
  calls (wait_input_consumed b) =
    calls b ++ (if decide (pcommit_end_ b = pinput_start_ b)
                then [CallCommit; CallEventWait] else [CallEventWait]).
Proof.
  unfold wait_input_consumed.
  destruct (Z.eqb_spec (pcommit_end_ b) (pinput_start_ b));
    destruct (decide (pcommit_end_ b = pinput_start_ b)); try contradiction;
    simpl; now rewrite <- ?app_assoc.
Qed.

(** *** The destructor's loop *)

Lemma count_waits_app xs ys :
  count_waits (xs ++ ys) = (count_waits xs + count_waits ys)%nat.
Proof. apply count_occ_app. Qed.

Lemma count_waits_signals sigs :
  Forall (eq CallEventSignal) sigs -> count_waits sigs = 0%nat.
Proof.
  induction 1 as [|c sigs <- _ IH]; [reflexivity|].
  unfold count_waits in *. simpl.
  destruct (call_eq_dec CallEventSignal CallEventWait); [discriminate|exact IH].
Qed.

Lemma no_free_signals sigs : Forall (eq CallEventSignal) sigs -> no_free sigs.
Proof.
  intros F p Hin. rewrite List.Forall_forall in F.
  apply F in Hin. discriminate.
Qed.

Lemma no_free_app xs ys : no_free xs -> no_free ys -> no_free (xs ++ ys).
Proof. intros Hx Hy p Hin. apply in_app_or in Hin as [H|H]; [eapply Hx|eapply Hy]; eauto. Qed.

(** What one [wait_input_consumed] followed by consumer activity adds to the
    call log: no [free], exactly one wait, and that wait comes first or right
    after a [commit]. *)
Lemma wait_then_consumer_calls b ops :
  exists new,
    calls (consumer_run (wait_input_consumed b) ops) = calls b ++ new /\
    no_free new /\ count_waits new = 1%nat.
Proof.
  destruct (consumer_run_calls ops (wait_input_consumed b)) as (sigs & E & F).
  rewrite wait_input_consumed_calls in E.
  eexists. split; [rewrite E, <- app_assoc; reflexivity|].
  split.
  - apply no_free_app; [|now apply no_free_signals].
    intros p Hin. destruct (decide _); simpl in Hin; intuition discriminate.
  - rewrite count_waits_app, (count_waits_signals sigs F).
    destruct (decide _); reflexivity.
Qed.

Local Opaque wait_input_consumed consumer_run.

Lemma drain_loop_calls sched : forall b,
  exists mid, no_free mid /\
    match drain_loop sched b with
    | Returned _ b' rest =>
        calls b' = calls b ++ mid ++ [CallFree (pbegin_ b)] /\
        pinput_start_ b' = pinput_end_ b' /\
        exists took, sched = took ++ rest /\ count_waits mid = length took
    | Blocked b' =>
        calls b' = calls b ++ mid /\
        pinput_start_ b' <> pinput_end_ b' /\
        last mid = Some CallEventWait /\
        count_waits mid = S (length sched)
    end.
Proof.
  induction sched as [|ops sched IH]; intros b; simpl;
    destruct (Z.eqb_spec (pinput_start_ b) (pinput_end_ b)) as [E|E]; simpl.
  - exists []. split; [intros p []|]. repeat split; auto.
    exists []. auto.
  - exists (if decide (pcommit_end_ b = pinput_start_ b)
            then [CallCommit; CallEventWait] else [CallEventWait]).
    rewrite wait_input_consumed_calls.
    destruct (wait_input_consumed_pointers b) as [-> ->].
    split; [|split; [reflexivity|]].
    + intros p Hin. destruct (decide _); simpl in Hin; intuition discriminate.
    + split; auto. destruct (decide _); split; reflexivity.
  - exists []. split; [intros p []|]. repeat split; auto.
    exists []. auto.
  - destruct (wait_then_consumer_calls b ops) as (new & En & Fn & Cn).
    destruct (IH (consumer_run (wait_input_consumed b) ops)) as (mid & Fm & H).
    exists (new ++ mid). split; [now apply no_free_app|].
    destruct (drain_loop sched (consumer_run (wait_input_consumed b) ops))
      as [[] b' rest|b'].
    + destruct H as (Ec & Ep & took & -> & Ct).
      rewrite consumer_run_pbegin in Ec.
      destruct (wait_input_consumed_layout b) as (Eb & _). rewrite Eb in Ec.
      split; [rewrite Ec, En, <- !app_assoc; reflexivity|].
      split; [exact Ep|].
      exists (ops :: took). split; [reflexivity|].
      rewrite count_waits_app, Cn, Ct. reflexivity.
    + destruct H as (Ec & Ep & El & Ct).
      split; [rewrite Ec, En, <- !app_assoc; reflexivity|].
      split; [exact Ep|]. split.
      * rewrite last_app, El. reflexivity.
      * rewrite count_waits_app, Cn, Ct. reflexivity.
Qed.

Local Transparent wait_input_consumed consumer_run.

(** *** The constructor *)

Lemma ctor_success plog size frame_alignment pbuffer m :
  thread_input_buffer_ctor plog size frame_alignment 0 pbuffer m
  = inr (fresh plog size frame_alignment pbuffer m).
Proof. reflexivity. Qed.

(** *** Rounding and alignment *)

(** C1.  Claim: for every requested size [s], [allocate_input_frame]
    allocates a frame of exactly [ceil(s, FRAME_ALIGNMENT)] bytes, the mask
    stored by the constructor being [FRAME_ALIGNMENT - 1].

    Evaluation of the code where it departs from the claim.  The constructor
    stores [frame_alignment] itself in [frame_alignment_mask_].  On a ring
    built with size 64 and alignment 16, a request of 1 byte is therefore
    rounded to 1, not to 16 (the least multiple of 16 that is at least 1),
    and the frame handed out is one byte long: the tail moves from [pbegin]
    to [pbegin + 1]. *)
Theorem C1_rounding_with_the_stored_mask (M plog : Z) (m : gmap Z Z)
    (sched : schedule) :
  let b := fresh plog 64 16 4096 m in
  is_power_of_two 16 = true /\
  thread_input_buffer_ctor plog 64 16 0 4096 m = inr b /\
  frame_alignment_mask_ b = 16 /\
  round_with_mask (frame_alignment_mask_ b) 1 = 1 /\
  ceil_multiple 16 1 = 16 /\
  allocate_input_frame M b 1 sched
  = Returned 4096 (set_pinput_end (4096 + 1) b) sched.
Proof.
  intros b. repeat split.
  unfold allocate_input_frame. destruct sched; reflexivity.
Qed.

(** C2.  Claim: for every sequence of [allocate_input_frame],
    [discard_input_frame] and [wraparound] operations from a freshly
    constructed ring, the head, the tail and every address [a] returned by
    [allocate_input_frame] satisfy [(a - pbegin) mod FRAME_ALIGNMENT = 0].

    Evaluation of the code where it departs from the claim.  On a fresh
    ring of size 64 and alignment 16 at address 4096, two requests of one
    byte return 4096 and 4097 and leave the tail at 4098: after the first
    request the tail is off the 16-byte grid, and the second returned
    address is too. *)
Theorem C2_alignment_after_two_small_requests (M plog : Z) (m : gmap Z Z) :
  let b := fresh plog 64 16 4096 m in
  let b1 := snd (ring_run M b [DoAllocate 1 []]) in
  let b2 := snd (ring_run M b [DoAllocate 1 []; DoAllocate 1 []]) in
  (pinput_end_ b1 - pbegin_ b1) mod 16 = 1 /\
  fst (ring_run M b [DoAllocate 1 []; DoAllocate 1 []])
  = [Some 4096; Some 4097] /\
  (4097 - pbegin_ b2) mod 16 = 1 /\
  (pinput_end_ b2 - pbegin_ b2) mod 16 = 2.
Proof. intros b b1 b2. repeat split. Qed.

(** *** Strict inequality *)

(** C3.  [allocate_input_frame] serves a request only under strict
    inequality.  On a ring in range, with [N] the rounded size: when the
    free space is contiguous (tail below head) and [N] equals it, or when it
    is split and [N] is at least as large as either part, the turn of the
    loop is not served: the call goes into [wait_input_consumed], stays
    there if the consumer does nothing more, and otherwise retries from the
    state the consumer left.  Conversely a turn that is served found [N]
    strictly below the contiguous free space, or strictly below one of the
    two parts. *)
Theorem C3_exact_fit_is_refused (M : Z) (b : thread_input_buffer) (s : Z) :
  buffer_in_range b ->
  inside b (pinput_start_ b) -> inside b (pinput_end_ b) ->
  let N := round_with_mask (frame_alignment_mask_ b) s in
  let free := pinput_start_ b - pinput_end_ b in
  let free1 := size_ b - (pinput_end_ b - pbegin_ b) in
  let free2 := pinput_start_ b - pbegin_ b in
  let blocks :=
    allocate_turn M b N = None /\
    forall sched,
      allocate_input_frame M b s sched =
        match sched with
        | [] => Blocked (wait_input_consumed b)
        | ops :: sched' =>
            allocate_input_frame M (consumer_run (wait_input_consumed b) ops)
                                 s sched'
        end in
  (pinput_end_ b < pinput_start_ b -> N = free -> blocks) /\
  (pinput_end_ b >= pinput_start_ b -> N >= free1 -> N >= free2 -> blocks) /\
  (forall p b', allocate_turn M b N = Some (p, b') ->
     (pinput_end_ b < pinput_start_ b /\ N < free) \/
     (pinput_end_ b >= pinput_start_ b /\ (N < free1 \/ N < free2))).
Proof.
  intros Hr Hst He N free free1 free2 blocks.
  pose proof (allocate_turn_in_range M b N Hr Hst He) as T.
  fold free free1 free2 in T.
  split; [|split].
  - intros Hlt Heq.
    assert (allocate_turn M b N = None) as E.
    { rewrite T. destruct (Z.ltb_spec (pinput_end_ b) (pinput_start_ b)); [|lia].
      destruct (Z.ltb_spec N free); [lia|reflexivity]. }
    split; [exact E | now apply allocate_input_frame_blocks].
  - intros Hge H1 H2.
    assert (allocate_turn M b N = None) as E.
    { rewrite T. destruct (Z.ltb_spec (pinput_end_ b) (pinput_start_ b)); [lia|].
      destruct (Z.ltb_spec N free1); [lia|].
      destruct (Z.ltb_spec N free2); [lia|reflexivity]. }
    split; [exact E | now apply allocate_input_frame_blocks].
  - intros p b' E. rewrite T in E.
    destruct (Z.ltb_spec (pinput_end_ b) (pinput_start_ b)).
    + left. destruct (Z.ltb_spec N free); [lia|discriminate].
    + right. split; [lia|].
      destruct (Z.ltb_spec N free1); [lia|].
      destruct (Z.ltb_spec N free2); [lia|discriminate].
Qed.

(** Scenario S2 of the design document, as an instance of C3: empty ring of
    size 64, alignment 16; a request of 64 bytes is not served. *)
Lemma C3_exact_fit_is_refused_witness :
  let b := fresh 0 64 16 4096 ∅ in
  round_with_mask (frame_alignment_mask_ b) 64 = 64 /\
  allocate_turn 1 b 64 = None /\
  allocate_input_frame 1 b 64 [] = Blocked (wait_input_consumed b).
Proof.
  intros b.
  assert (buffer_in_range b) as Hr by (repeat split; vm_compute; congruence).
  assert (inside b (pinput_start_ b)) as Hst by (split; vm_compute; congruence).
  assert (inside b (pinput_end_ b)) as He by (split; vm_compute; congruence).
  destruct (C3_exact_fit_is_refused 1 b 64 Hr Hst He) as (_ & H & _).
  destruct H as [E B]; try (vm_compute; congruence).
  split; [reflexivity|]. split; [exact E | exact (B [])].
Defined.

(** Scenario S2 for a ring at any address, whatever the marker, as long as
    the consumer discards nothing. *)
Lemma exact_fit_refused_on_empty_ring (M plog pbuffer : Z) (m : gmap Z Z) :
  0 <= pbuffer -> pbuffer + 64 < modulus ->
  forall n : nat,
  exists b', allocate_input_frame M (fresh plog 64 16 pbuffer m) 64
                                  (repeat [] n) = Blocked b'.
Proof.
  intros Hp Hend n. rewrite modulus_value in Hend.
  unfold allocate_input_frame.
  change (round_with_mask (frame_alignment_mask_ (fresh plog 64 16 pbuffer m)) 64)
    with 64.
  assert (forall b, buffer_in_range b -> size_ b = 64 ->
            pinput_start_ b = pbegin_ b -> pinput_end_ b = pbegin_ b ->
            exists b', allocate_loop M (repeat [] n) b 64 = Blocked b') as H.
  { induction n as [|n IH]; intros b Hr Hs Hst He.
    - cbn [repeat allocate_loop].
      rewrite (allocate_turn_in_range M b 64 Hr)
        by (destruct Hr as (? & ? & ?); unfold inside; lia).
      rewrite Hst, He, Hs, Z.ltb_irrefl.
      replace (64 <? 64 - (pbegin_ b - pbegin_ b)) with false
        by (symmetry; apply Z.ltb_ge; lia).
      replace (64 <? pbegin_ b - pbegin_ b) with false
        by (symmetry; apply Z.ltb_ge; lia).
      eauto.
    - cbn [repeat allocate_loop].
      rewrite (allocate_turn_in_range M b 64 Hr)
        by (destruct Hr as (? & ? & ?); unfold inside; lia).
      rewrite Hst, He, Hs, Z.ltb_irrefl.
      replace (64 <? 64 - (pbegin_ b - pbegin_ b)) with false
        by (symmetry; apply Z.ltb_ge; lia).
      replace (64 <? pbegin_ b - pbegin_ b) with false
        by (symmetry; apply Z.ltb_ge; lia).
      cbn [consumer_run fold_left].
      destruct (wait_input_consumed_layout b) as (Eb & Es & _).
      destruct (wait_input_consumed_pointers b) as (Ep1 & Ep2).
      apply IH.
      + unfold buffer_in_range in *. rewrite Eb, Es. exact Hr.
      + congruence.
      + congruence.
      + congruence. }
  apply H; try reflexivity.
  unfold buffer_in_range; simpl. rewrite half_modulus_value, modulus_value. lia.
Qed.

(** *** Waiting for the consumer *)

(** C4.  [wait_input_consumed] calls [plog->commit()] before waiting on the
    event if and only if [pcommit_end == pinput_start] at entry; in every
    other case it only waits on [input_consumed_event].  The calls it adds
    to the log are [commit; wait] in the first case and [wait] alone in the
    second; head and tail are left as they were. *)
Theorem C4_commit_before_wait_iff_caught_up (b : thread_input_buffer) :
  exists new,
    calls (wait_input_consumed b) = calls b ++ new /\
    new = (if decide (pcommit_end_ b = pinput_start_ b)
           then [CallCommit; CallEventWait] else [CallEventWait]) /\
    (In CallCommit new <-> pcommit_end_ b = pinput_start_ b) /\
    pinput_start_ (wait_input_consumed b) = pinput_start_ b /\
    pinput_end_ (wait_input_consumed b) = pinput_end_ b.
Proof.
  eexists. split; [apply wait_input_consumed_calls|].
  split; [reflexivity|]. split; [|apply wait_input_consumed_pointers].
  destruct (decide (pcommit_end_ b = pinput_start_ b)) as [E|E]; simpl.
  - tauto.
  - split; [intros [H|[]]; discriminate | contradiction].
Qed.

(** *** The wraparound marker *)

(** C5.  In [allocate_input_frame], on a ring in range with
    [pinput_end >= pinput_start], when the rounded size [N] satisfies
    [N >= free1] and [N < free2], the producer writes [WRAPAROUND_MARKER] as
    one machine word at the current [pinput_end] (the eight bytes there read
    back as the marker, every other byte is untouched), sets [pinput_end] to
    [pbegin + N] (wrapping to [pbegin] if that equals [pbegin + size]) and
    returns [pbegin]; head, commit mark and call log are unchanged. *)
Theorem C5_wraparound_marker_and_restart (M : Z) (b : thread_input_buffer)
    (s : Z) (sched : schedule) :
  buffer_in_range b ->
  inside b (pinput_start_ b) -> inside b (pinput_end_ b) ->
  let N := round_with_mask (frame_alignment_mask_ b) s in
  pinput_end_ b >= pinput_start_ b ->
  N >= size_ b - (pinput_end_ b - pbegin_ b) ->
  N < pinput_start_ b - pbegin_ b ->
  exists b',
    allocate_input_frame M b s sched = Returned (pbegin_ b) b' sched /\
    load_word (memory b') (pinput_end_ b) = Some (wrap64 M) /\
    (forall x, x < pinput_end_ b \/ pinput_end_ b + 8 <= x ->
               memory b' !! x = memory b !! x) /\
    pinput_end_ b' = (if pbegin_ b + N =? pbegin_ b + size_ b
                      then pbegin_ b else pbegin_ b + N) /\
    pinput_start_ b' = pinput_start_ b /\
    pcommit_end_ b' = pcommit_end_ b /\
    calls b' = calls b /\
    same_layout b b'.
Proof.
  intros Hr Hst He N Hge H1 H2.
  pose proof (allocate_turn_in_range M b N Hr Hst He) as T.
  destruct (Z.ltb_spec (pinput_end_ b) (pinput_start_ b)); [lia|].
  destruct (Z.ltb_spec N (size_ b - (pinput_end_ b - pbegin_ b))); [lia|].
  destruct (Z.ltb_spec N (pinput_start_ b - pbegin_ b)); [|lia].
  eexists. split.
  { unfold allocate_input_frame. fold N.
    destruct sched; cbn [allocate_loop]; rewrite T; reflexivity. }
  cbn [memory pinput_end_ pinput_start_ pcommit_end_ calls
       set_pinput_end set_memory].
  split; [apply load_store_word|].
  split; [intros x Hx; now apply store_word_other|].
  split; [|repeat split].
  pose proof (round_with_mask_range (frame_alignment_mask_ b) s) as HN.
  fold N in HN. destruct Hr as (Hb & Hs & Hend). unfold inside in *.
  rewrite half_modulus_value in Hs.
  apply advance_frame_pointer_in_range; rewrite ?modulus_value in *; lia.
Qed.

(** Scenario S3 of the design document, as an instance of C5: ring of size
    128, alignment 16, head at 64, tail at 112; a request of 32 bytes. *)
Lemma C5_wraparound_marker_and_restart_witness :
  let b := mk_buffer 0 128 16 4096 (4096 + 64) (4096 + 112) 4096 ∅ [] in
  exists b',
    allocate_input_frame 1 b 32 [] = Returned 4096 b' [] /\
    load_word (memory b') (4096 + 112) = Some 1 /\
    pinput_end_ b' = 4096 + 32.
Proof.
  intros b.
  assert (buffer_in_range b) as Hr by (repeat split; vm_compute; congruence).
  assert (inside b (pinput_start_ b)) as Hst by (split; vm_compute; congruence).
  assert (inside b (pinput_end_ b)) as He by (split; vm_compute; congruence).
  destruct (C5_wraparound_marker_and_restart 1 b 32 [] Hr Hst He)
    as (b' & E & L & _ & P & _); try (vm_compute; congruence).
  exists b'. split; [exact E|]. split; [exact L | exact P].
Defined.

(** *** The destructor *)

Lemma commit_calls b : calls (commit b) = calls b ++ [CallCommit].
Proof. reflexivity. Qed.

(** *** Advancing a frame pointer *)

(** C7.  For every pointer [p] inside the buffer and distance [d] with
    [p + d <= pbegin + size], [advance_frame_pointer(p, d)] returns [p + d],
    except that when [p + d] equals [pbegin + size] it returns [pbegin];
    consequently [discard_input_frame] and [allocate_input_frame] never leave
    head or tail pointing at [pbegin + size].

    Stated for the state [b] reached from a freshly constructed ring by any
    sequence of [allocate_input_frame] (returned or still blocked),
    [discard_input_frame] and [wraparound] calls. *)
Theorem C7_advance_wraps_at_the_end (M plog size align pbuffer : Z)
    (m : gmap Z Z) (cs : list ring_call) (p d : Z) :
  let b := snd (ring_run M (fresh plog size align pbuffer m) cs) in
  0 <= pbuffer -> 0 < size -> pbuffer + size < modulus ->
  pbuffer <= p < pbuffer + size -> 0 <= d -> p + d <= pbuffer + size ->
  advance_frame_pointer b p d
  = (if p + d =? pbuffer + size then pbuffer else p + d) /\
  pinput_start_ b <> pbuffer + size /\
  pinput_end_ b <> pbuffer + size.
Proof.
  intros b Hb Hs Hend Hp Hd Hfit.
  set (b0 := fresh plog size align pbuffer m) in *.
  assert (same_layout b0 b) as (Eb & Es & _).
  { subst b. clear. generalize b0. induction cs as [|c cs IH]; intros b1.
    - apply same_layout_refl.
    - simpl. pose proof (ring_step_layout M b1 c) as L.
      destruct (ring_step M b1 c) as [r b2]. specialize (IH b2).
      destruct (ring_run M b2 cs) as [rs b3]. simpl in *.
      eapply same_layout_trans; eauto. }
  change (pbegin_ b0) with pbuffer in Eb. change (size_ b0) with size in Es.
  split.
  - rewrite <- Eb, <- Es.
    apply advance_frame_pointer_in_range; rewrite ?Eb, ?Es; lia.
  - assert (never_at_end b) as [H1 H2].
    { apply ring_run_never_at_end.
      - change (size_ b0) with size. lia.
      - split; simpl; lia. }
    rewrite Eb, Es in H1, H2. auto.
Qed.

(** C7 on a ring of size 64 at address 4096, after one served request of 16
    bytes: advancing from offset 48 by 16 reaches the end and wraps. *)
Lemma C7_advance_wraps_at_the_end_witness :
  let b := snd (ring_run 1 (fresh 0 64 16 4096 ∅) [DoAllocate 16 []]) in
  advance_frame_pointer b (4096 + 48) 16 = 4096 /\
  pinput_start_ b <> 4096 + 64 /\
  pinput_end_ b <> 4096 + 64.
Proof.
  intros b.
  apply (C7_advance_wraps_at_the_end 1 0 64 16 4096 ∅ [DoAllocate 16 []]
           (4096 + 48) 16); vm_compute; try split; congruence.
Defined.

(** C8.  Claim: [advance_frame_pointer] asserts on overflow, that is, the
    assertion fails whenever [p + d] exceeds [pbegin + size].

    Evaluation of the code where it departs from the claim.  [remaining] is
    unsigned, so the asserted condition [remaining >= 0] holds for every
    input.  On a ring of size 64 at address 4096, advancing from offset 48
    by 32 passes the assertion and returns an address beyond the end of the
    buffer; so does the advance inside [discard_input_frame(80)] on the
    fresh ring. *)
Theorem C8_overflow_assertion_always_holds :
  (forall b p d, advance_assertion b p d = true) /\
  (forall plog m,
     let b := fresh plog 64 16 4096 m in
     pbegin_ b + size_ b < (4096 + 48) + 32 /\
     advance_assertion b (4096 + 48) 32 = true /\
     advance_frame_pointer b (4096 + 48) 32 = 4096 + 80 /\
     advance_assertion b (pinput_start_ b) (round_with_mask 16 80) = true /\
     fst (discard_input_frame b 80) = 4096 + 96).
Proof.
  split.
  - intros b p d. unfold advance_assertion, advance_remaining.
    apply Z.leb_le. apply wrap64_range.
  - intros plog m b. repeat split.
Qed.

(** The destructor on a ring that holds one 32-byte frame, with a consumer
    that discards it while the destructor waits. *)
Example dtor_drains_one_frame :
  let b := snd (ring_run 1 (fresh 0 64 16 4096 ∅) [DoAllocate 32 []]) in
  match thread_input_buffer_dtor b [[Discard 32]] with
  | Returned _ b' rest =>
      calls b' = [CallCommit; CallEventWait; CallEventSignal; CallFree 4096]
      /\ rest = []
  | Blocked _ => False
  end.
Proof. vm_compute. split; reflexivity. Qed.

(** The same ring with a consumer that never runs: the destructor stays in
    its wait and releases nothing. *)
Example dtor_blocks_without_consumer :
  let b := snd (ring_run 1 (fresh 0 64 16 4096 ∅) [DoAllocate 32 []]) in
  match thread_input_buffer_dtor b [] with
  | Returned _ _ _ => False
  | Blocked b' => calls b' = [CallCommit; CallEventWait]
  end.
Proof. vm_compute. reflexivity. Qed.

End RingFacts.

(** ** The thread-local holder *)

Module ThreadObjectFacts.

Import ThreadObject.

Lemma consistent_boot : consistent boot.
Proof. intros t k a H. simpl in H. rewrite lookup_empty in H. discriminate. Qed.

Lemma getspecific_set p t k a :
  slots p !! (t, k) = Some a -> pthread_getspecific p t k = a.
Proof. unfold pthread_getspecific. now intros ->. Qed.

Lemma getspecific_unset p t k :
  slots p !! (t, k) = None -> pthread_getspecific p t k = 0.
Proof. unfold pthread_getspecific. now intros ->. Qed.

(** [get] on a thread whose slot is set. *)
Lemma get_set h t nr rc p a :
  slots p !! (t, key_ h) = Some a -> a <> 0 ->
  get h t nr rc p = (Ret a, p).
Proof.
  intros Hs Ha. unfold get. rewrite (getspecific_set _ _ _ _ Hs).
  destruct (Z.eqb_spec a 0); [contradiction|reflexivity].
Qed.

(** [get] on a thread whose slot is not set, when the instance is built at
    a usable address. *)
Lemma get_unset h t a rc p :
  slots p !! (t, key_ h) = None -> a <> 0 ->
  get h t (inr a) rc p =
    if rc =? 0 then
      (Ret a, mk_process (<[(t, key_ h) := a]> (slots p))
                         (<[a := Some (key_ h)]> (<[a := None]> (objects p))))
    else
      (if rc =? ENOMEM then Throw BadAlloc else Throw (SystemError rc),
       mk_process (slots p)
                  (<[a := Some (key_ h)]> (<[a := None]> (objects p)))).
Proof.
  intros Hs Ha. unfold get. rewrite (getspecific_unset _ _ _ Hs).
  cbn [Z.eqb negb]. unfold create_and_get, create, assign_key.
  unfold pthread_setspecific. cbn [slots objects].
  destruct (Z.eqb_spec a 0); [contradiction|].
  destruct (Z.eqb_spec rc 0) as [->|Hrc].
  - reflexivity.
  - destruct (Z.eqb_spec rc 0); [contradiction|].
    destruct (rc =? ENOMEM); reflexivity.
Qed.

Lemma get_unset_throw h t e rc p :
  slots p !! (t, key_ h) = None ->
  get h t (inl e) rc p = (Throw e, p).
Proof.
  intros Hs. unfold get. rewrite (getspecific_unset _ _ _ Hs). reflexivity.
Qed.

(** Where a returned pointer comes from. *)
Lemma get_ret_origin h t nr rc p a p' :
  consistent p -> allocator_ok p (EvGet h t nr rc) ->
  get h t nr rc p = (Ret a, p') ->
  a <> 0 /\ slots p' !! (t, key_ h) = Some a /\
  (slots p !! (t, key_ h) = Some a \/
   (slots p !! (t, key_ h) = None /\ objects p !! a = None)).
Proof.
  intros Hc Hok Hg.
  destruct (slots p !! (t, key_ h)) as [a0|] eqn:Hs.
  - destruct (Hc _ _ _ Hs) as (Ha0 & _).
    rewrite (get_set h t nr rc p a0 Hs Ha0) in Hg. inversion Hg; subst. auto.
  - destruct nr as [e|a0].
    + rewrite get_unset_throw in Hg by exact Hs. discriminate.
    + destruct (Hok (getspecific_unset _ _ _ Hs)) as (Ha0 & Hfresh).
      rewrite get_unset in Hg by assumption.
      destruct (rc =? 0).
      * inversion Hg; subst. cbn [slots]. rewrite lookup_insert_eq. auto.
      * destruct (rc =? ENOMEM); discriminate.
Qed.

Lemma get_consistent h t nr rc p :
  consistent p -> allocator_ok p (EvGet h t nr rc) ->
  consistent (snd (get h t nr rc p)).
Proof.
  intros Hc Hok.
  destruct (slots p !! (t, key_ h)) as [a0|] eqn:Hs.
  - destruct (Hc _ _ _ Hs) as (Ha0 & _).
    now rewrite (get_set h t nr rc p a0 Hs Ha0).
  - destruct nr as [e|a].
    + now rewrite get_unset_throw.
    + destruct (Hok (getspecific_unset _ _ _ Hs)) as (Ha & Hfresh).
      rewrite get_unset by assumption.
      assert (forall t' k' a', slots p !! (t', k') = Some a' -> a' <> a) as Hne.
      { intros t' k' a' H' ->. destruct (Hc _ _ _ H') as (_ & Ho & _). congruence. }
      destruct (rc =? 0); cbn [snd].
      * intros t' k' a' H'. cbn [slots objects] in *.
        rewrite lookup_insert in H'. destruct (decide ((t, key_ h) = (t', k'))) as [E|E].
        -- inversion E; subst. inversion H'; subst. clear H'.
           split; [exact Ha|]. split; [now rewrite lookup_insert_eq|].
           intros t'' k'' H''. rewrite lookup_insert in H''.
           destruct (decide ((t', key_ h) = (t'', k''))) as [E'|E']; [congruence|].
           exfalso. eapply Hne; eauto.
        -- destruct (Hc _ _ _ H') as (Ha' & Ho & Hinj).
           split; [exact Ha'|]. split.
           ++ rewrite !lookup_insert_ne by (apply not_eq_sym; eapply Hne; eauto).
              exact Ho.
           ++ intros t'' k'' H''. rewrite lookup_insert in H''.
              destruct (decide ((t, key_ h) = (t'', k''))) as [E'|E'].
              ** inversion H''; subst. exfalso. eapply Hne; eauto.
              ** now apply Hinj.
      * intros t' k' a' H'. cbn [slots objects] in *.
        destruct (Hc _ _ _ H') as (Ha' & Ho & Hinj).
        split; [exact Ha'|]. split; [|exact Hinj].
        rewrite !lookup_insert_ne by (apply not_eq_sym; eapply Hne; eauto).
        exact Ho.
Qed.

(** [get] leaves the slots that are set as they are. *)
Lemma get_keeps_slots h t nr rc p t' k' a' :
  consistent p -> allocator_ok p (EvGet h t nr rc) ->
  slots p !! (t', k') = Some a' ->
  slots (snd (get h t nr rc p)) !! (t', k') = Some a'.
Proof.
  intros Hc Hok H'.
  destruct (slots p !! (t, key_ h)) as [a0|] eqn:Hs.
  - destruct (Hc _ _ _ Hs) as (Ha0 & _).
    now rewrite (get_set h t nr rc p a0 Hs Ha0).
  - destruct nr as [e|a].
    + now rewrite get_unset_throw.
    + destruct (Hok (getspecific_unset _ _ _ Hs)) as (Ha & Hfresh).
      rewrite get_unset by assumption.
      destruct (rc =? 0); cbn [snd slots]; [|exact H'].
      rewrite lookup_insert_ne; [exact H'|]. congruence.
Qed.

(** Exit processing of a key whose slot is not set does nothing. *)
Lemma key_destructor_unset t k rc p :
  slots p !! (t, k) = None -> key_destructor t k rc p = Some p.
Proof.
  intros Hs. unfold key_destructor.
  now rewrite (getspecific_unset _ _ _ Hs).
Qed.

(** Exit processing of a key whose slot is set: the instance is deleted and
    the slot ends up cleared, unless restoring the slot fails. *)
Lemma key_destructor_set t k rc p a :
  consistent p -> slots p !! (t, k) = Some a ->
  key_destructor t k rc p =
    if rc =? 0
    then Some (mk_process (delete (t, k) (slots p)) (delete a (objects p)))
    else None.
Proof.
  intros Hc Hs. destruct (Hc _ _ _ Hs) as (Ha & Ho & _).
  assert ((a =? 0) = false) as E0 by now apply Z.eqb_neq.
  unfold key_destructor. rewrite (getspecific_set _ _ _ _ Hs), E0.
  unfold destroy. rewrite E0. cbn [objects]. rewrite Ho.
  unfold pthread_setspecific. rewrite E0. cbn [slots objects].
  destruct (rc =? 0) eqn:Erc; cbn [negb Z.eqb snd slots objects].
  - now rewrite delete_insert_eq, delete_delete_eq.
  - now rewrite Erc.
Qed.

Lemma key_destructor_consistent t k rc p p' :
  consistent p -> key_destructor t k rc p = Some p' -> consistent p'.
Proof.
  intros Hc Hk.
  destruct (slots p !! (t, k)) as [a|] eqn:Hs.
  - rewrite (key_destructor_set t k rc p a Hc Hs) in Hk.
    destruct (rc =? 0); [|discriminate]. inversion Hk; subst; clear Hk.
    intros t' k' a' H'. cbn [slots objects] in *.
    rewrite lookup_delete in H'.
    destruct (decide ((t, k) = (t', k'))) as [E|E]; [discriminate|].
    destruct (Hc _ _ _ H') as (Ha' & Ho & Hinj).
    split; [exact Ha'|]. split.
    + rewrite lookup_delete_ne; [exact Ho|].
      intros ->. apply E. now apply Hinj.
    + intros t'' k'' H''. rewrite lookup_delete in H''.
      destruct (decide ((t, k) = (t'', k''))); [discriminate|]. now apply Hinj.
  - rewrite key_destructor_unset in Hk by exact Hs. now inversion Hk; subst.
Qed.

Lemma key_destructor_keeps_slots t k rc p p' t' k' a' :
  consistent p -> key_destructor t k rc p = Some p' ->
  (t, k) <> (t', k') ->
  slots p !! (t', k') = Some a' -> slots p' !! (t', k') = Some a'.
Proof.
  intros Hc Hk Hne H'.
  destruct (slots p !! (t, k)) as [a|] eqn:Hs.
  - rewrite (key_destructor_set t k rc p a Hc Hs) in Hk.
    destruct (rc =? 0); [|discriminate]. inversion Hk; subst; clear Hk.
    cbn [slots]. now rewrite lookup_delete_ne.
  - rewrite key_destructor_unset in Hk by exact Hs. now inversion Hk; subst.
Qed.

(** *** Runs *)

Lemma exec_consistent p ev r p' :
  consistent p -> allocator_ok p ev -> exec p ev = Some (r, p') ->
  consistent p'.
Proof.
  intros Hc Hok He. destruct ev as [h t nr rc|t k rc]; simpl in He.
  - inversion He as [E]. pose proof (get_consistent h t nr rc p Hc Hok) as H.
    now rewrite E in H.
  - destruct (key_destructor t k rc p) as [p0|] eqn:Hk; [|discriminate].
    inversion He; subst. eapply key_destructor_consistent; eauto.
Qed.

Lemma exec_keeps_slot p ev r p' t k a :
  consistent p -> allocator_ok p ev -> exec p ev = Some (r, p') ->
  (forall rc, ev <> EvKeyDestructor t k rc) ->
  slots p !! (t, k) = Some a -> slots p' !! (t, k) = Some a.
Proof.
  intros Hc Hok He Hev Hs. destruct ev as [h t' nr rc|t' k' rc]; simpl in He.
  - inversion He as [E].
    pose proof (get_keeps_slots h t' nr rc p t k a Hc Hok Hs) as H.
    now rewrite E in H.
  - destruct (key_destructor t' k' rc p) as [p0|] eqn:Hk; [|discriminate].
    inversion He; subst.
    eapply key_destructor_keeps_slots; eauto.
    intros E. inversion E; subst. now apply (Hev rc).
Qed.

Lemma run_keeps_slot evs : forall p rs p' t k a,
  consistent p -> run_ok p evs -> run p evs = Some (rs, p') ->
  ~ exits t k evs ->
  slots p !! (t, k) = Some a ->
  consistent p' /\ slots p' !! (t, k) = Some a.
Proof.
  induction evs as [|ev evs IH]; intros p rs p' t k a Hc Hok Hr Hex Hs.
  - simpl in Hr. inversion Hr; subst. auto.
  - simpl in Hr, Hok. destruct Hok as [Hok1 Hok2].
    destruct (exec p ev) as [[r p1]|] eqn:He; [|discriminate].
    destruct (run p1 evs) as [[rs1 p2]|] eqn:Hr1; [|discriminate].
    inversion Hr; subst. eapply (IH p1); eauto.
    + eapply exec_consistent; eauto.
    + intros [rc Hin]. apply Hex. exists rc. now right.
    + eapply exec_keeps_slot; eauto.
      intros rc ->. apply Hex. exists rc. now left.
Qed.

Lemma run_consistent evs : forall p rs p',
  consistent p -> run_ok p evs -> run p evs = Some (rs, p') -> consistent p'.
Proof.
  induction evs as [|ev evs IH]; intros p rs p' Hc Hok Hr.
  - simpl in Hr. now inversion Hr; subst.
  - simpl in Hr, Hok. destruct Hok as [Hok1 Hok2].
    destruct (exec p ev) as [[r p1]|] eqn:He; [|discriminate].
    destruct (run p1 evs) as [[rs1 p2]|] eqn:Hr1; [|discriminate].
    inversion Hr; subst. eapply (IH p1); eauto.
    eapply exec_consistent; eauto.
Qed.

Lemma run_ok_app xs : forall p ys rs p',
  run p xs = Some (rs, p') ->
  run_ok p (xs ++ ys) -> run_ok p xs /\ run_ok p' ys.
Proof.
  induction xs as [|x xs IH]; intros p ys rs p' Hr Hok.
  - simpl in *. inversion Hr; subst. auto.
  - simpl in *. destruct Hok as [Hok1 Hok2].
    destruct (exec p x) as [[r p1]|] eqn:He; [|discriminate].
    destruct (run p1 xs) as [[rs1 p2]|] eqn:Hr1; [|discriminate].
    inversion Hr; subst.
    destruct (IH p1 ys rs1 p' Hr1 Hok2) as [H1 H2]. auto.
Qed.

(** *** Identity *)

(** C9.  For every thread, between the first call to [holder.get()] on
    that thread and that thread's exit, every call to [get()] on that thread
    returns the same non-null object pointer, and [get()] called on two
    different threads returns different pointers.

    Stated on runs of a process started with no thread-specific value set,
    in which the allocator keeps its contract, for a holder that is alive
    throughout.  Let [get] on thread [t1] have returned [a1], and let the
    run go on, with no exit processing of [t1] for the holder's key, up to a
    call of [get] on thread [t2].  Then [a1] is non-null, and
    - on [t1] itself that call returns [a1], whatever the [new]-expression
      or the set-specific call would do, and leaves the process as it is;
    - on another thread that call never returns [a1]: if the thread has its
      value [a] set it returns [a], if not and its instance is built at [a]
      and stored it returns [a], in both cases non-null and different from
      [a1]; otherwise it throws, and the thread still has no value. *)
Theorem C9_holder_identity (h : thread_object) (t1 t2 : nat)
    (pre mid : list event) (nr1 nr2 : exn + Z) (rc1 rc2 : Z)
    (rs1 rs2 : list result) (p1 p2 p3 : process) (a1 : Z) :
  run_ok boot (pre ++ EvGet h t1 nr1 rc1 :: mid ++ [EvGet h t2 nr2 rc2]) ->
  run boot pre = Some (rs1, p1) ->
  get h t1 nr1 rc1 p1 = (Ret a1, p2) ->
  run p2 mid = Some (rs2, p3) ->
  ~ exits t1 (key_ h) mid ->
  a1 <> 0 /\
  (t2 = t1 -> get h t2 nr2 rc2 p3 = (Ret a1, p3)) /\
  (t2 <> t1 ->
     (forall a, slots p3 !! (t2, key_ h) = Some a ->
        get h t2 nr2 rc2 p3 = (Ret a, p3) /\ a <> 0 /\ a <> a1) /\
     (forall a, slots p3 !! (t2, key_ h) = None -> nr2 = inr a -> rc2 = 0 ->
        fst (get h t2 nr2 rc2 p3) = Ret a /\ a <> 0 /\ a <> a1) /\
     (slots p3 !! (t2, key_ h) = None ->
      (exists e, nr2 = inl e) \/ rc2 <> 0 ->
        (exists e, fst (get h t2 nr2 rc2 p3) = Throw e) /\
        slots (snd (get h t2 nr2 rc2 p3)) !! (t2, key_ h) = None) /\
     (forall a2, fst (get h t2 nr2 rc2 p3) = Ret a2 -> a2 <> 0 /\ a2 <> a1) /\
     fst (get h t2 nr2 rc2 p3) <> Done).
Proof.
  intros Hok Hpre Hg1 Hmid Hex.
  destruct (run_ok_app pre boot _ rs1 p1 Hpre Hok) as [Hok0 Hok1].
  assert (consistent p1) as Hc1
    by (eapply run_consistent; eauto using consistent_boot).
  simpl in Hok1. destruct Hok1 as [Hal1 Hok2]. rewrite Hg1 in Hok2.
  destruct (run_ok_app mid p2 _ rs2 p3 Hmid Hok2) as [Hok3 Hok4].
  simpl in Hok4. destruct Hok4 as [Hal2 _].
  destruct (get_ret_origin h t1 nr1 rc1 p1 a1 p2 Hc1 Hal1 Hg1) as (Ha1 & Hs2 & _).
  assert (consistent p2) as Hc2.
  { pose proof (get_consistent h t1 nr1 rc1 p1 Hc1 Hal1) as H.
    now rewrite Hg1 in H. }
  destruct (run_keeps_slot mid p2 rs2 p3 t1 (key_ h) a1 Hc2 Hok3 Hmid Hex Hs2)
    as [Hc3 Hs3].
  destruct (Hc3 _ _ _ Hs3) as (_ & Ho3 & Hinj).
  split; [exact Ha1|]. split.
  { intros ->. now apply get_set. }
  intros Hne.
  assert (forall a, slots p3 !! (t2, key_ h) = Some a ->
            get h t2 nr2 rc2 p3 = (Ret a, p3) /\ a <> 0 /\ a <> a1) as Hset.
  { intros a Hs. destruct (Hc3 _ _ _ Hs) as (Ha & _).
    split; [now apply get_set|]. split; [exact Ha|].
    intros ->. apply Hinj in Hs. inversion Hs. contradiction. }
  assert (forall a, slots p3 !! (t2, key_ h) = None -> nr2 = inr a ->
            a <> 0 /\ a <> a1 /\
            get h t2 nr2 rc2 p3 =
              if rc2 =? 0 then
                (Ret a, mk_process (<[(t2, key_ h) := a]> (slots p3))
                          (<[a := Some (key_ h)]> (<[a := None]> (objects p3))))
              else
                (if rc2 =? ENOMEM then Throw BadAlloc
                 else Throw (SystemError rc2),
                 mk_process (slots p3)
                   (<[a := Some (key_ h)]> (<[a := None]> (objects p3)))))
    as Hnew.
  { intros a Hs ->. simpl in Hal2.
    destruct (Hal2 (getspecific_unset _ _ _ Hs)) as (Ha & Hfresh).
    split; [exact Ha|]. split; [intros ->; congruence|].
    now apply get_unset. }
  split; [exact Hset|]. split; [|split; [|split]].
  - intros a Hs Hnr ->. destruct (Hnew a Hs Hnr) as (Ha & Hd & ->). auto.
  - intros Hs Hfail. destruct nr2 as [e|a].
    + rewrite get_unset_throw by exact Hs. split; [eauto | exact Hs].
    + destruct Hfail as [[e He]|Hrc]; [discriminate|].
      destruct (Hnew a Hs eq_refl) as (_ & _ & ->).
      destruct (Z.eqb_spec rc2 0); [contradiction|]. cbn [fst snd slots].
      split; [destruct (rc2 =? ENOMEM); eauto | exact Hs].
  - intros a2 Hr. destruct (slots p3 !! (t2, key_ h)) as [a|] eqn:Hs.
    + destruct (Hset a eq_refl) as (Hg & Ha & Hd). rewrite Hg in Hr.
      inversion Hr; subst. auto.
    + destruct nr2 as [e|a].
      * rewrite get_unset_throw in Hr by exact Hs. discriminate.
      * destruct (Hnew a eq_refl eq_refl) as (Ha & Hd & Hg). rewrite Hg in Hr.
        destruct (rc2 =? 0); [inversion Hr; subst; auto|].
        destruct (rc2 =? ENOMEM); discriminate.
  - destruct (slots p3 !! (t2, key_ h)) as [a|] eqn:Hs.
    + destruct (Hset a eq_refl) as (-> & _). discriminate.
    + destruct nr2 as [e|a].
      * rewrite get_unset_throw by exact Hs. discriminate.
      * destruct (Hnew a eq_refl eq_refl) as (_ & _ & ->).
        destruct (rc2 =? 0); [discriminate|].
        destruct (rc2 =? ENOMEM); discriminate.
Qed.

(** Scenario S6 of the design document, as instances of C9: thread 0 and
    thread 1 each call [get] twice; the instances are built at 4096 and
    8192.  The second calls are made with a [new]-expression that would
    throw and a set-specific call that would fail. *)
Lemma C9_holder_identity_witness :
  let h := mk_thread_object 7 in
  let p2 := snd (get h 0%nat (inr 4096) 0 boot) in
  let p3 := snd (get h 1%nat (inr 8192) 0 p2) in
  get h 0%nat (inr 4096) 0 boot = (Ret 4096, p2) /\
  get h 1%nat (inr 8192) 0 p2 = (Ret 8192, p3) /\
  4096 <> 0 /\ 8192 <> 0 /\ 8192 <> 4096 /\
  get h 0%nat (inl BadAlloc) ENOMEM p3 = (Ret 4096, p3) /\
  get h 1%nat (inl BadAlloc) ENOMEM p3 = (Ret 8192, p3).
Proof.
  intros h p2 p3.
  assert (get h 0%nat (inr 4096) 0 boot = (Ret 4096, p2)) as G1 by reflexivity.
  assert (get h 1%nat (inr 8192) 0 p2 = (Ret 8192, p3)) as G2 by reflexivity.
  assert (forall t k, ~ exits t k []) as Hex0 by (intros t k [rc []]).
  (* thread 0 first, then the first call of thread 1 *)
  assert (run_ok boot ([] ++ EvGet h 0%nat (inr 4096) 0
                          :: [] ++ [EvGet h 1%nat (inr 8192) 0])) as Hok1.
  { simpl. split; [intros _; split; [discriminate|reflexivity]|].
    split; [intros _; split; [discriminate|reflexivity]|exact I]. }
  destruct (C9_holder_identity h 0%nat 1%nat [] [] (inr 4096) (inr 8192) 0 0
              [] [] boot p2 p2 4096 Hok1 eq_refl G1 eq_refl (Hex0 _ _))
    as (N1 & _ & D).
  destruct (D ltac:(discriminate)) as (_ & Dnew & _).
  destruct (Dnew 8192 eq_refl eq_refl eq_refl) as (_ & N2 & D2).
  (* thread 0 again, after thread 1 *)
  assert (~ exits 0%nat (key_ h) [EvGet h 1%nat (inr 8192) 0]) as Hex1.
  { intros [rc [H|[]]]. discriminate. }
  assert (run_ok boot ([] ++ EvGet h 0%nat (inr 4096) 0
                          :: [EvGet h 1%nat (inr 8192) 0]
                             ++ [EvGet h 0%nat (inl BadAlloc) ENOMEM])) as Hok2.
  { simpl. split; [intros _; split; [discriminate|reflexivity]|].
    split; [intros _; split; [discriminate|reflexivity]|].
    split; exact I. }
  destruct (C9_holder_identity h 0%nat 0%nat [] [EvGet h 1%nat (inr 8192) 0]
              (inr 4096) (inl BadAlloc) 0 ENOMEM
              [] [Ret 8192] boot p2 p3 4096 Hok2 eq_refl G1 eq_refl Hex1)
    as (_ & S0 & _).
  (* thread 1 again *)
  assert (run_ok boot ([EvGet h 0%nat (inr 4096) 0]
                          ++ EvGet h 1%nat (inr 8192) 0
                          :: [] ++ [EvGet h 1%nat (inl BadAlloc) ENOMEM])) as Hok3.
  { simpl. split; [intros _; split; [discriminate|reflexivity]|].
    split; [intros _; split; [discriminate|reflexivity]|].
    split; exact I. }
  destruct (C9_holder_identity h 1%nat 1%nat [EvGet h 0%nat (inr 4096) 0] []
              (inr 8192) (inl BadAlloc) 0 ENOMEM
              [Ret 4096] [] p2 p3 p3 8192 Hok3 eq_refl G2 eq_refl (Hex0 _ _))
    as (_ & S1 & _).
  split; [exact G1|]. split; [exact G2|]. split; [exact N1|].
  split; [exact N2|]. split; [exact D2|].
  split; [exact (S0 eq_refl) | exact (S1 eq_refl)].
Defined.

(** *** Failure of the first call *)

(** C10.  On first-time creation (the calling thread's slot is not set and
    the instance has been built at [a]), [holder.get()] fails by raising an
    allocation error when the set-specific call reports [ENOMEM] and a
    system error carrying the code for any other nonzero result; both reach
    the caller as the outcome of [get], as does an exception that leaves
    the [new]-expression.  On success the freshly created instance pointer
    is returned and is the thread's value from then on. *)
Theorem C10_first_get_outcomes (h : thread_object) (t : nat) (a rc : Z)
    (p : process) :
  pthread_getspecific p t (key_ h) = 0 -> a <> 0 ->
  (rc = 0 ->
     fst (get h t (inr a) rc p) = Ret a /\
     pthread_getspecific (snd (get h t (inr a) rc p)) t (key_ h) = a) /\
  (rc = ENOMEM -> fst (get h t (inr a) rc p) = Throw BadAlloc) /\
  (rc <> 0 -> rc <> ENOMEM ->
     fst (get h t (inr a) rc p) = Throw (SystemError rc)) /\
  (forall e, get h t (inl e) rc p = (Throw e, p)).
Proof.
  intros Hnull Ha.
  unfold get. rewrite Hnull. cbn [Z.eqb negb].
  unfold create_and_get, create, assign_key, pthread_setspecific.
  cbn [slots objects].
  destruct (Z.eqb_spec a 0); [contradiction|].
  split; [|split; [|split; [|reflexivity]]].
  - intros ->. cbn [Z.eqb fst snd]. split; [reflexivity|].
    unfold pthread_getspecific. cbn [slots]. now rewrite lookup_insert_eq.
  - intros ->. reflexivity.
  - intros H0 Hm. destruct (Z.eqb_spec rc 0); [contradiction|].
    destruct (Z.eqb_spec rc 0); [contradiction|].
    destruct (Z.eqb_spec rc ENOMEM); [contradiction|reflexivity].
Qed.

(** C10 at three return codes of the set-specific call: 0, [ENOMEM] and
    [EINVAL] (22). *)
Lemma C10_first_get_outcomes_witness :
  let h := mk_thread_object 7 in
  fst (get h 0%nat (inr 4096) 0 boot) = Ret 4096 /\
  fst (get h 0%nat (inr 4096) ENOMEM boot) = Throw BadAlloc /\
  fst (get h 0%nat (inr 4096) 22 boot) = Throw (SystemError 22).
Proof.
  intros h.
  assert (pthread_getspecific boot 0%nat (key_ h) = 0) as Hn by reflexivity.
  assert (4096 <> 0) as Ha by discriminate.
  split; [|split].
  - apply (C10_first_get_outcomes h 0%nat 4096 0 boot Hn Ha). reflexivity.
  - apply (C10_first_get_outcomes h 0%nat 4096 ENOMEM boot Hn Ha). reflexivity.
  - apply (C10_first_get_outcomes h 0%nat 4096 22 boot Hn Ha); discriminate.
Defined.

End ThreadObjectFacts.

(** * Further properties of the thread input buffer *)

Module RingExtras.

Import Ring MachineFacts RingFacts.

(** *** The rounding idiom *)

Lemma land_mask_le x mask : 0 <= mask -> Z.land x mask <= mask.
Proof. intros H. rewrite Z.land_comm. now apply land_le_l. Qed.

Lemma round_with_mask_ldiff mask s :
  0 <= s + mask < modulus ->
  round_with_mask mask s = s + mask - Z.land (s + mask) mask.
Proof.
  intros H. unfold round_with_mask.
  rewrite (wrap64_small _ H), land_not64 by exact H.
  rewrite Z.ldiff_land. symmetry. apply Z.sub_land_same_l.
Qed.

Lemma round_with_mask_ge mask s :
  0 <= s -> 0 <= mask -> s + mask < modulus -> s <= round_with_mask mask s.
Proof.
  intros Hs Hm Hlt. rewrite round_with_mask_ldiff by lia.
  pose proof (land_mask_le (s + mask) mask Hm). lia.
Qed.

Lemma round_with_mask_le mask s :
  0 <= s -> 0 <= mask -> s + mask < modulus ->
  round_with_mask mask s <= s + mask.
Proof.
  intros Hs Hm Hlt. rewrite round_with_mask_ldiff by lia.
  assert (0 <= Z.land (s + mask) mask) by (apply Z.land_nonneg; lia). lia.
Qed.

Lemma round_with_mask_clear mask s :
  0 <= s + mask < modulus -> Z.land (round_with_mask mask s) mask = 0.
Proof.
  intros H. unfold round_with_mask.
  rewrite (wrap64_small _ H), land_not64 by exact H.
  rewrite Z.ldiff_land, <- Z.land_assoc, (Z.land_comm (Z.lnot mask)).
  now rewrite Z.land_lnot_diag, Z.land_0_r.
Qed.

Lemma round_with_mask_fixed mask n :
  0 <= n -> 0 <= mask -> n + mask < modulus -> Z.land n mask = 0 ->
  round_with_mask mask n = n.
Proof.
  intros Hn Hm Hlt Hz. unfold round_with_mask.
  rewrite (wrap64_small (n + mask)) by lia.
  rewrite land_not64 by lia. rewrite Z.ldiff_land.
  rewrite (Z.add_nocarry_lxor n mask Hz), (Z.lxor_lor n mask Hz).
  rewrite Z.land_lor_distr_l, Z.land_lnot_diag, Z.lor_0_r.
  rewrite <- Z.sub_land_same_l, Hz. lia.
Qed.

(** X1.  The size that [allocate_input_frame] and [discard_input_frame]
    work with, [(size + mask) & ~mask], is never smaller than the size asked
    for, has none of the bits of the mask, and is left as it is by a second
    rounding: passing the rounded size instead of the request changes
    nothing, in either function.  (Sizes and mask are those of a
    [std::size_t] computation that does not overflow.) *)
Theorem X1_rounded_size_covers_the_request (M : Z) (b : thread_input_buffer)
    (s : Z) (sched : schedule) :
  0 <= s -> 0 <= frame_alignment_mask_ b ->
  s + 2 * frame_alignment_mask_ b < modulus ->
  let N := round_with_mask (frame_alignment_mask_ b) s in
  s <= N /\
  Z.land N (frame_alignment_mask_ b) = 0 /\
  discard_input_frame b N = discard_input_frame b s /\
  allocate_input_frame M b N sched = allocate_input_frame M b s sched.
Proof.
  intros Hs Hm Hlt N.
  assert (s <= N) as Hge by (apply round_with_mask_ge; lia).
  assert (N <= s + frame_alignment_mask_ b) as Hle
    by (apply round_with_mask_le; lia).
  assert (Z.land N (frame_alignment_mask_ b) = 0) as Hz
    by (apply round_with_mask_clear; lia).
  assert (round_with_mask (frame_alignment_mask_ b) N = N) as Hfix
    by (apply round_with_mask_fixed; lia).
  repeat split; auto.
  - unfold discard_input_frame. now rewrite Hfix.
  - unfold allocate_input_frame. now rewrite Hfix.
Qed.

(** X1 on the ring of size 64 built with alignment 16, for a request of 17
    bytes. *)
Lemma X1_rounded_size_covers_the_request_witness :
  let b := fresh 0 64 16 4096 ∅ in
  17 <= round_with_mask 16 17 /\
  Z.land (round_with_mask 16 17) 16 = 0 /\
  discard_input_frame b (round_with_mask 16 17) = discard_input_frame b 17.
Proof.
  intros b.
  destruct (X1_rounded_size_covers_the_request 1 b 17 [])
    as (H1 & H2 & H3 & _); try (vm_compute; congruence).
  repeat split; assumption.
Defined.

(** *** A request that is served *)

Lemma allocate_now_turn M b s p b' rest :
  allocate_input_frame M b s [] = Returned p b' rest ->
  allocate_turn M b (round_with_mask (frame_alignment_mask_ b) s)
  = Some (p, b') /\ rest = [].
Proof.
  unfold allocate_input_frame. cbn [allocate_loop].
  destruct (allocate_turn M b _) as [[p0 b0]|]; [|discriminate].
  intros H. inversion H; subst. auto.
Qed.

Lemma allocate_turn_shape M b N p b' :
  allocate_turn M b N = Some (p, b') ->
  (p = pinput_end_ b \/ p = pbegin_ b) /\
  pinput_end_ b' = advance_frame_pointer b p N /\
  pinput_start_ b' = pinput_start_ b /\
  pcommit_end_ b' = pcommit_end_ b /\
  calls b' = calls b /\
  same_layout b b'.
Proof.
  unfold allocate_turn. intros H.
  repeat match type of H with
         | context [if ?c then _ else _] => destruct c
         end; inversion H; subst; repeat split; auto.
Qed.

(** X2.  No torn frames.  On a ring in range whose head and tail are inside
    the buffer, a request that [allocate_input_frame] serves without waiting
    gets an address inside the buffer with the rounded size, hence the
    requested size, available before the end of the buffer; the tail moves
    to the end of the frame, which is again inside the buffer (the frame
    never reaches the very end), and the head, the commit mark and the call
    log are untouched. *)
Theorem X2_served_frame_lies_in_the_buffer (M : Z) (b : thread_input_buffer)
    (s p : Z) (b' : thread_input_buffer) (rest : schedule) :
  buffer_in_range b ->
  inside b (pinput_start_ b) -> inside b (pinput_end_ b) ->
  0 <= s -> 0 <= frame_alignment_mask_ b ->
  s + frame_alignment_mask_ b < modulus ->
  allocate_input_frame M b s [] = Returned p b' rest ->
  let N := round_with_mask (frame_alignment_mask_ b) s in
  inside b p /\ p + s <= p + N /\ p + N < pbegin_ b + size_ b /\
  pinput_end_ b' = p + N /\ inside b' (pinput_end_ b') /\
  pinput_start_ b' = pinput_start_ b /\
  pcommit_end_ b' = pcommit_end_ b /\ calls b' = calls b.
Proof.
  intros Hr Hst He Hs Hm Hlt Ha N.
  apply allocate_now_turn in Ha as [Ht _]. fold N in Ht.
  destruct (allocate_turn_shape M b N p b' Ht)
    as (_ & Etail & Ehead & Ecommit & Ecalls & (Eb & Es & _)).
  assert (s <= N) as Hge by (apply round_with_mask_ge; lia).
  rewrite (allocate_turn_in_range M b N Hr Hst He) in Ht.
  destruct Hr as (Hb & Hsz & Hend). unfold inside in *.
  rewrite half_modulus_value in Hsz.
  assert (inside b p /\ p + N < pbegin_ b + size_ b) as [Hp Hfit].
  { unfold inside.
    destruct (Z.ltb_spec (pinput_end_ b) (pinput_start_ b)).
    - destruct (Z.ltb_spec N (pinput_start_ b - pinput_end_ b));
        inversion Ht; subst; lia.
    - destruct (Z.ltb_spec N (size_ b - (pinput_end_ b - pbegin_ b))).
      + inversion Ht; subst; lia.
      + destruct (Z.ltb_spec N (pinput_start_ b - pbegin_ b));
          inversion Ht; subst; lia. }
  unfold inside in Hp.
  assert (advance_frame_pointer b p N = p + N) as Eadv.
  { rewrite advance_frame_pointer_in_range by (rewrite ?modulus_value in *; lia).
    destruct (Z.eqb_spec (p + N) (pbegin_ b + size_ b)); lia. }
  rewrite Eadv in Etail.
  repeat split; auto; try lia; rewrite ?Eb, ?Es, ?Etail; lia.
Qed.

(** X2 on scenario S3: ring of size 128 at 4096, head at 64, tail at 112,
    request of 32 bytes. *)
Lemma X2_served_frame_lies_in_the_buffer_witness :
  let b := mk_buffer 0 128 16 4096 (4096 + 64) (4096 + 112) 4096 ∅ [] in
  exists b',
    allocate_input_frame 1 b 32 [] = Returned 4096 b' [] /\
    4096 + 32 < pbegin_ b + size_ b /\ pinput_end_ b' = 4096 + 32.
Proof.
  intros b.
  pose (b' := outcome_state (allocate_input_frame 1 b 32 [])).
  assert (allocate_input_frame 1 b 32 [] = Returned 4096 b' []) as E
    by reflexivity.
  exists b'. split; [exact E|].
  assert (buffer_in_range b) as Hr by (repeat split; vm_compute; congruence).
  assert (inside b (pinput_start_ b)) as Hst by (split; vm_compute; congruence).
  assert (inside b (pinput_end_ b)) as He by (split; vm_compute; congruence).
  destruct (X2_served_frame_lies_in_the_buffer 1 b 32 4096 b' [] Hr Hst He)
    as (_ & _ & H3 & H4 & _); try (vm_compute; congruence).
  split; [exact H3 | exact H4].
Defined.

(** X3.  A served frame does not overlap what the consumer has not given
    back.  On a ring in range with head and tail inside the buffer, the
    bytes of the frame handed out lie outside the unconsumed region, belong
    to it afterwards together with everything that was in it, and, unless
    the rounded size is zero, the ring is not empty afterwards: a full ring
    is never mistaken for an empty one. *)
Theorem X3_served_frame_is_free_space (M : Z) (b : thread_input_buffer)
    (s p : Z) (b' : thread_input_buffer) (rest : schedule) :
  buffer_in_range b ->
  inside b (pinput_start_ b) -> inside b (pinput_end_ b) ->
  allocate_input_frame M b s [] = Returned p b' rest ->
  let N := round_with_mask (frame_alignment_mask_ b) s in
  (forall x, p <= x < p + N -> ~ unconsumed b x) /\
  (forall x, p <= x < p + N -> unconsumed b' x) /\
  (forall x, unconsumed b x -> unconsumed b' x) /\
  (0 < N -> pinput_start_ b' <> pinput_end_ b').
Proof.
  intros Hr Hst He Ha N.
  apply allocate_now_turn in Ha as [Ht _]. fold N in Ht.
  destruct (allocate_turn_shape M b N p b' Ht)
    as (_ & Etail & Ehead & _ & _ & (Eb & Es & _)).
  pose proof (round_with_mask_range (frame_alignment_mask_ b) s) as HN.
  fold N in HN.
  rewrite (allocate_turn_in_range M b N Hr Hst He) in Ht.
  destruct Hr as (Hb & Hsz & Hend). unfold inside in *.
  rewrite half_modulus_value in Hsz.
  assert (advance_frame_pointer b p N = p + N /\
          ((pinput_end_ b < pinput_start_ b /\ p = pinput_end_ b /\
            p + N < pinput_start_ b) \/
           (pinput_start_ b <= pinput_end_ b /\ p = pinput_end_ b /\
            p + N < pbegin_ b + size_ b) \/
           (pinput_start_ b <= pinput_end_ b /\ p = pbegin_ b /\
            p + N < pinput_start_ b))) as [Eadv Hcase].
  { assert (pbegin_ b <= p /\ p + N < pbegin_ b + size_ b /\
            ((pinput_end_ b < pinput_start_ b /\ p = pinput_end_ b /\
              p + N < pinput_start_ b) \/
             (pinput_start_ b <= pinput_end_ b /\ p = pinput_end_ b /\
              p + N < pbegin_ b + size_ b) \/
             (pinput_start_ b <= pinput_end_ b /\ p = pbegin_ b /\
              p + N < pinput_start_ b))) as (Hp & Hfit & Hc).
    { destruct (Z.ltb_spec (pinput_end_ b) (pinput_start_ b)).
      - destruct (Z.ltb_spec N (pinput_start_ b - pinput_end_ b));
          inversion Ht; subst; lia.
      - destruct (Z.ltb_spec N (size_ b - (pinput_end_ b - pbegin_ b))).
        + inversion Ht; subst; lia.
        + destruct (Z.ltb_spec N (pinput_start_ b - pbegin_ b));
            inversion Ht; subst; lia. }
    split; [|exact Hc].
    rewrite advance_frame_pointer_in_range by (rewrite ?modulus_value in *; lia).
    destruct (Z.eqb_spec (p + N) (pbegin_ b + size_ b)); lia. }
  rewrite Eadv in Etail.
  unfold unconsumed. rewrite Ehead, Etail, Eb, Es.
  repeat split.
  - intros x Hx.
    destruct (Z.leb_spec (pinput_start_ b) (pinput_end_ b)); lia.
  - intros x Hx.
    destruct (Z.leb_spec (pinput_start_ b) (p + N)); lia.
  - intros x.
    destruct (Z.leb_spec (pinput_start_ b) (pinput_end_ b));
      destruct (Z.leb_spec (pinput_start_ b) (p + N)); lia.
  - lia.
Qed.

(** X3 on scenario S3. *)
Lemma X3_served_frame_is_free_space_witness :
  let b := mk_buffer 0 128 16 4096 (4096 + 64) (4096 + 112) 4096 ∅ [] in
  let b' := outcome_state (allocate_input_frame 1 b 32 []) in
  ~ unconsumed b (4096 + 16) /\ unconsumed b' (4096 + 16) /\
  pinput_start_ b' <> pinput_end_ b'.
Proof.
  intros b b'.
  assert (allocate_input_frame 1 b 32 [] = Returned 4096 b' []) as E
    by reflexivity.
  assert (buffer_in_range b) as Hr by (repeat split; vm_compute; congruence).
  assert (inside b (pinput_start_ b)) as Hst by (split; vm_compute; congruence).
  assert (inside b (pinput_end_ b)) as He by (split; vm_compute; congruence).
  destruct (X3_served_frame_is_free_space 1 b 32 4096 b' [] Hr Hst He E)
    as (H1 & H2 & _ & H4).
  split; [|split].
  - apply H1. vm_compute. split; congruence.
  - apply H2. vm_compute. split; congruence.
  - apply H4. reflexivity.
Defined.

(** *** What the consumer's operations touch *)

Lemma consumer_step_frame b op :
  pinput_end_ (consumer_step b op) = pinput_end_ b /\
  pcommit_end_ (consumer_step b op) = pcommit_end_ b /\
  memory (consumer_step b op) = memory b.
Proof. destruct op; repeat split. Qed.

Lemma consumer_run_frame ops : forall b,
  pinput_end_ (consumer_run b ops) = pinput_end_ b /\
  pcommit_end_ (consumer_run b ops) = pcommit_end_ b /\
  memory (consumer_run b ops) = memory b.
Proof.
  induction ops as [|op ops IH]; intros b; simpl; [auto|].
  destruct (IH (consumer_step b op)) as (-> & -> & ->).
  apply consumer_step_frame.
Qed.

Lemma consumer_run_signals ops : forall b,
  calls (consumer_run b ops)
  = calls b ++ repeat CallEventSignal (count_discards ops).
Proof.
  induction ops as [|op ops IH]; intros b; simpl.
  - now rewrite app_nil_r.
  - rewrite IH. destruct op; simpl.
    + now rewrite <- app_assoc.
    + reflexivity.
Qed.

(** X4.  Whatever sequence of [discard_input_frame] and [wraparound] calls
    the consumer makes, it changes nothing but the head: tail, commit mark,
    memory, base, size and mask stay as they are.  The event is signalled
    exactly once for every [discard_input_frame] and never by [wraparound]:
    the calls added to the log are that many signals and nothing else. *)
Theorem X4_consumer_only_moves_the_head (b : thread_input_buffer)
    (ops : list consumer_op) :
  pinput_end_ (consumer_run b ops) = pinput_end_ b /\
  pcommit_end_ (consumer_run b ops) = pcommit_end_ b /\
  memory (consumer_run b ops) = memory b /\
  same_layout b (consumer_run b ops) /\
  calls (consumer_run b ops)
  = calls b ++ repeat CallEventSignal (count_discards ops).
Proof.
  destruct (consumer_run_frame ops b) as (H1 & H2 & H3).
  repeat split; auto; try apply consumer_run_layout.
  apply consumer_run_signals.
Qed.

(** *** A request that is not served *)

Lemma wait_input_consumed_memory b :
  memory (wait_input_consumed b) = memory b.
Proof.
  unfold wait_input_consumed.
  destruct (pcommit_end_ b =? pinput_start_ b); reflexivity.
Qed.

Lemma allocate_loop_blocked M N sched : forall b b',
  allocate_loop M sched b N = Blocked b' ->
  pinput_end_ b' = pinput_end_ b /\ memory b' = memory b /\
  exists new, calls b' = calls b ++ new /\ no_free new /\
              count_waits new = S (length sched).
Proof.
  induction sched as [|ops sched IH]; intros b b' H; cbn [allocate_loop] in H;
    destruct (allocate_turn M b N) as [[p0 b0]|]; try discriminate.
  - inversion H; subst.
    split; [apply wait_input_consumed_pointers|].
    split; [apply wait_input_consumed_memory|].
    destruct (wait_then_consumer_calls b []) as (new & E & F & C).
    exists new. auto.
  - apply IH in H as (Et & Em & new & Ec & Fn & Cn).
    destruct (consumer_run_frame ops (wait_input_consumed b)) as (Et' & _ & Em').
    destruct (wait_input_consumed_pointers b) as [_ Et''].
    split; [congruence|]. split; [rewrite Em, Em'; apply wait_input_consumed_memory|].
    destruct (wait_then_consumer_calls b ops) as (new0 & E0 & F0 & C0).
    exists (new0 ++ new). split; [rewrite Ec, E0, <- app_assoc; reflexivity|].
    split; [now apply no_free_app|].
    rewrite count_waits_app, C0, Cn. reflexivity.
Qed.

(** X5.  A call of [allocate_input_frame] that ends up blocked has not
    moved the tail and has not written to memory (no marker is placed
    without a frame being handed out), whatever the consumer did in the
    meantime; it has waited on the event once more than the consumer got to
    run, and has released nothing. *)
Theorem X5_blocked_request_changes_nothing (M : Z) (b : thread_input_buffer)
    (s : Z) (sched : schedule) (b' : thread_input_buffer) :
  allocate_input_frame M b s sched = Blocked b' ->
  pinput_end_ b' = pinput_end_ b /\ memory b' = memory b /\
  exists new, calls b' = calls b ++ new /\ no_free new /\
              count_waits new = S (length sched).
Proof. unfold allocate_input_frame. apply allocate_loop_blocked. Qed.

(** X5 on the empty ring of size 64: a request of 64 bytes, with a consumer
    that wakes the producer up twice without having discarded anything. *)
Lemma X5_blocked_request_changes_nothing_witness :
  let b := fresh 0 64 16 4096 ∅ in
  let b' := outcome_state (allocate_input_frame 1 b 64 [[]; []]) in
  pinput_end_ b' = 4096 /\ memory b' = ∅ /\
  exists new, calls b' = [] ++ new /\ count_waits new = 3%nat.
Proof.
  intros b b'.
  assert (allocate_input_frame 1 b 64 [[]; []] = Blocked b') as E by reflexivity.
  destruct (X5_blocked_request_changes_nothing 1 b 64 [[]; []] b' E)
    as (H1 & H2 & new & H3 & _ & H4).
  split; [exact H1|]. split; [exact H2|]. exists new. auto.
Defined.

(** *** The empty ring *)

(** X6.  An empty ring in range (head equal to tail, inside the buffer)
    serves at once every request whose rounded size is less than half the
    buffer, at the head or at the base; when head and tail are at the base,
    as after construction, it serves every request whose rounded size is
    less than the size of the buffer, at the base. *)
Theorem X6_empty_ring_serves (M : Z) (b : thread_input_buffer) (s : Z)
    (sched : schedule) :
  buffer_in_range b -> inside b (pinput_start_ b) ->
  pinput_end_ b = pinput_start_ b ->
  let N := round_with_mask (frame_alignment_mask_ b) s in
  (2 * N < size_ b ->
   exists p b', allocate_input_frame M b s sched = Returned p b' sched /\
                (p = pinput_start_ b \/ p = pbegin_ b)) /\
  (pinput_start_ b = pbegin_ b -> N < size_ b ->
   exists b', allocate_input_frame M b s sched = Returned (pbegin_ b) b' sched).
Proof.
  intros Hr Hst He N.
  assert (inside b (pinput_end_ b)) as Het by (rewrite He; exact Hst).
  pose proof (allocate_turn_in_range M b N Hr Hst Het) as T.
  rewrite He, Z.ltb_irrefl in T.
  assert (forall p b', allocate_turn M b N = Some (p, b') ->
            allocate_input_frame M b s sched = Returned p b' sched) as Hret.
  { intros p b' E. unfold allocate_input_frame. fold N.
    destruct sched; cbn [allocate_loop]; rewrite E; reflexivity. }
  unfold inside in Hst. split.
  - intros H2.
    destruct (Z.ltb_spec N (size_ b - (pinput_start_ b - pbegin_ b))).
    + eexists _, _. split; [apply Hret, T|]. auto.
    + destruct (Z.ltb_spec N (pinput_start_ b - pbegin_ b)); [|lia].
      eexists _, _. split; [apply Hret, T|]. auto.
  - intros Hb HN.
    destruct (Z.ltb_spec N (size_ b - (pinput_start_ b - pbegin_ b))); [|lia].
    exists (set_pinput_end (advance_frame_pointer b (pinput_start_ b) N) b).
    apply Hret. rewrite T. congruence.
Qed.

(** X6 on the ring of size 64 right after construction, request of 32
    bytes. *)
Lemma X6_empty_ring_serves_witness :
  let b := fresh 0 64 16 4096 ∅ in
  exists b', allocate_input_frame 1 b 32 [] = Returned 4096 b' [].
Proof.
  intros b.
  assert (buffer_in_range b) as Hr by (repeat split; vm_compute; congruence).
  assert (inside b (pinput_start_ b)) as Hst by (split; vm_compute; congruence).
  destruct (X6_empty_ring_serves 1 b 32 [] Hr Hst eq_refl) as [_ H].
  apply H; [reflexivity | vm_compute; reflexivity].
Defined.

(** *** The marker, read back *)

(** X7.  Round trip of the wraparound marker.  When a request is served by
    restarting at the base (ring in range, tail not below head, rounded size
    not fitting before the end of the buffer but fitting before the head),
    then once the consumer's head has reached the old tail, by whatever
    operations, the word at the head is the marker, so the check that
    [wraparound] makes in debug builds passes, and [wraparound] moves the
    head to the very address the request was given. *)
Theorem X7_marker_round_trip (M : Z) (b : thread_input_buffer) (s : Z)
    (ops : list consumer_op) :
  buffer_in_range b ->
  inside b (pinput_start_ b) -> inside b (pinput_end_ b) ->
  let N := round_with_mask (frame_alignment_mask_ b) s in
  pinput_end_ b >= pinput_start_ b ->
  N >= size_ b - (pinput_end_ b - pbegin_ b) ->
  N < pinput_start_ b - pbegin_ b ->
  let o := allocate_input_frame M b s [] in
  let c := consumer_run (outcome_state o) ops in
  pinput_start_ c = pinput_end_ b ->
  wraparound_assertion M c = true /\
  outcome_value o = Some (fst (wraparound c)) /\
  pinput_start_ (snd (wraparound c)) = pbegin_ b.
Proof.
  intros Hr Hst He N Hge H1 H2 o c Hc.
  pose proof (allocate_turn_in_range M b N Hr Hst He) as T.
  destruct (Z.ltb_spec (pinput_end_ b) (pinput_start_ b)); [lia|].
  destruct (Z.ltb_spec N (size_ b - (pinput_end_ b - pbegin_ b))); [lia|].
  destruct (Z.ltb_spec N (pinput_start_ b - pbegin_ b)); [|lia].
  assert (o = Returned (pbegin_ b)
                (set_pinput_end (advance_frame_pointer b (pbegin_ b) N)
                   (set_memory (store_word (memory b) (pinput_end_ b) M) b))
                []) as Eo.
  { subst o. unfold allocate_input_frame. fold N. cbn [allocate_loop].
    now rewrite T. }
  subst c. rewrite Eo in *. cbn [outcome_state outcome_value] in *.
  set (b' := set_pinput_end _ _) in *.
  destruct (consumer_run_frame ops b') as (_ & _ & Em).
  destruct (consumer_run_layout ops b') as (Eb & _).
  split; [|split].
  - unfold wraparound_assertion. rewrite Em, Hc.
    apply bool_decide_eq_true. subst b'. cbn [memory set_pinput_end set_memory].
    apply load_store_word.
  - unfold wraparound. cbn [fst pbegin_ set_pinput_start].
    rewrite Eb. subst b'. reflexivity.
  - unfold wraparound. cbn [snd pinput_start_ set_pinput_start].
    rewrite Eb. subst b'. reflexivity.
Qed.

(** X7 on a ring of size 128 at 4096 with one frame of 32 bytes pending at
    offset 80: a request of 32 bytes restarts at the base; the consumer
    discards the pending frame and finds the marker. *)
Lemma X7_marker_round_trip_witness :
  let b := mk_buffer 0 128 16 4096 (4096 + 80) (4096 + 112) 4096 ∅ [] in
  let o := allocate_input_frame 1 b 32 [] in
  let c := consumer_run (outcome_state o) [Discard 32] in
  pinput_start_ c = 4096 + 112 /\
  wraparound_assertion 1 c = true /\
  outcome_value o = Some (fst (wraparound c)).
Proof.
  intros b o c.
  assert (buffer_in_range b) as Hr by (repeat split; vm_compute; congruence).
  assert (inside b (pinput_start_ b)) as Hst by (split; vm_compute; congruence).
  assert (inside b (pinput_end_ b)) as He by (split; vm_compute; congruence).
  destruct (X7_marker_round_trip 1 b 32 [Discard 32] Hr Hst He)
    as (H1 & H2 & _); try (vm_compute; congruence).
  split; [reflexivity|]. split; [exact H1 | exact H2].
Defined.

(** *** When the destructor returns *)

Lemma after_waits_layout took : forall b, same_layout b (after_waits b took).
Proof.
  induction took as [|ops took IH]; intros b; simpl.
  - apply same_layout_refl.
  - eapply same_layout_trans; [apply wait_input_consumed_layout|].
    eapply same_layout_trans; [apply consumer_run_layout | apply IH].
Qed.

Lemma drain_loop_returns sched : forall b b' rest,
  drain_loop sched b = Returned tt b' rest <->
  exists took,
    sched = took ++ rest /\
    pinput_start_ (after_waits b took) = pinput_end_ (after_waits b took) /\
    b' = record_call (CallFree (pbegin_ b)) (after_waits b took) /\
    forall n, (n < length took)%nat ->
      pinput_start_ (after_waits b (take n took))
      <> pinput_end_ (after_waits b (take n took)).
Proof.
  induction sched as [|ops sched IH]; intros b b' rest; split.
  - cbn [drain_loop].
    destruct (Z.eqb_spec (pinput_start_ b) (pinput_end_ b)) as [E|E];
      cbn [negb]; [|discriminate].
    intros H. inversion H; subst. exists []. repeat split; auto.
    intros n Hn. simpl in Hn. lia.
  - intros (took & Hs & Hd & -> & Hn).
    symmetry in Hs. apply app_eq_nil in Hs as [-> ->].
    cbn [drain_loop]. simpl in Hd.
    destruct (Z.eqb_spec (pinput_start_ b) (pinput_end_ b)); [|contradiction].
    reflexivity.
  - cbn [drain_loop].
    destruct (Z.eqb_spec (pinput_start_ b) (pinput_end_ b)) as [E|E];
      cbn [negb].
    + intros H. inversion H; subst. exists []. repeat split; auto.
      intros n Hn. simpl in Hn. lia.
    + intros H. apply IH in H as (took & -> & Hd & -> & Hn).
      exists (ops :: took). split; [reflexivity|]. split; [exact Hd|].
      split.
      * f_equal. f_equal.
        destruct (consumer_run_layout ops (wait_input_consumed b)) as (-> & _).
        apply wait_input_consumed_layout.
      * intros [|n] Hlt; [exact E|]. simpl in Hlt. apply (Hn n). lia.
  - intros (took & Hs & Hd & -> & Hn). cbn [drain_loop].
    destruct took as [|ops' took].
    + simpl in Hs, Hd. subst rest.
      destruct (Z.eqb_spec (pinput_start_ b) (pinput_end_ b)); [|contradiction].
      reflexivity.
    + simpl in Hs. injection Hs as E1 E2. subst ops' sched.
      pose proof (Hn O ltac:(simpl; lia)) as H0. simpl in H0.
      destruct (Z.eqb_spec (pinput_start_ b) (pinput_end_ b)) as [?|Hne];
        [contradiction|].
      cbn [negb]. apply IH. exists took. split; [reflexivity|].
      split; [exact Hd|]. split.
      * f_equal. f_equal.
        destruct (consumer_run_layout ops (wait_input_consumed b)) as (-> & _).
        symmetry. apply wait_input_consumed_layout.
      * intros m Hlt. apply (Hn (S m)). simpl. lia.
Qed.

(** X8.  The destructor returns exactly when the consumer's activity brings
    the head to the tail, and then at the first such moment.  With [took]
    the batches of consumer activity it waited through: it returns, leaving
    [rest] of the schedule, if and only if the schedule is [took] followed
    by [rest], head equals tail after [commit] and the waits for [took], and
    head differed from tail at each earlier check; the state it leaves is
    that state with [free(pbegin)] added to the calls. *)
Theorem X8_destructor_returns_when_drained (b : thread_input_buffer)
    (sched rest : schedule) (b' : thread_input_buffer) :
  thread_input_buffer_dtor b sched = Returned tt b' rest <->
  exists took,
    sched = took ++ rest /\
    pinput_start_ (after_waits (commit b) took)
    = pinput_end_ (after_waits (commit b) took) /\
    b' = record_call (CallFree (pbegin_ b)) (after_waits (commit b) took) /\
    forall n, (n < length took)%nat ->
      pinput_start_ (after_waits (commit b) (take n took))
      <> pinput_end_ (after_waits (commit b) (take n took)).
Proof.
  unfold thread_input_buffer_dtor.
  exact (drain_loop_returns sched (commit b) b' rest).
Qed.

(** *** Frames come back in the order they were handed out *)

Lemma advance_frame_pointer_layout b c p d :
  same_layout b c -> advance_frame_pointer c p d = advance_frame_pointer b p d.
Proof. intros (Eb & Es & _). unfold advance_frame_pointer. now rewrite Eb, Es. Qed.

Lemma produce_frame M sizes : forall b ps b1,
  produce M b sizes = Some (ps, b1) ->
  same_layout b b1 /\ pinput_start_ b1 = pinput_start_ b /\
  length ps = length sizes.
Proof.
  induction sizes as [|s sizes IH]; intros b ps b1 H; cbn [produce] in H.
  - inversion H; subst. split; [apply same_layout_refl | auto].
  - destruct (allocate_input_frame M b s []) as [p b' rest|] eqn:Ea;
      [|discriminate].
    destruct (produce M b' sizes) as [[ps' b'']|] eqn:Ep; [|discriminate].
    inversion H; subst.
    apply allocate_now_turn in Ea as [Et _].
    destruct (allocate_turn_shape M b _ p b' Et) as (_ & _ & Eh & _ & _ & L).
    destruct (IH b' ps' b1 Ep) as (L' & Eh' & El).
    split; [eapply same_layout_trans; eauto|].
    split; [congruence | simpl; congruence].
Qed.

Lemma consume_frame frames : forall c c',
  consume c frames = Some c' ->
  pinput_end_ c' = pinput_end_ c /\ same_layout c c'.
Proof.
  induction frames as [|[p s] frames IH]; intros c c' H; cbn [consume] in H.
  - inversion H; subst. split; [reflexivity | apply same_layout_refl].
  - destruct (Z.eqb_spec (pinput_start_ c) p) as [E|E].
    + rewrite E, Z.eqb_refl in H. apply IH in H as [H1 H2].
      split; [exact H1|]. eapply same_layout_trans; [|exact H2]. repeat split.
    + cbn [wraparound snd pinput_start_ set_pinput_start] in H.
      destruct (pbegin_ c =? p); [|discriminate].
      apply IH in H as [H1 H2].
      split; [exact H1|]. eapply same_layout_trans; [|exact H2]. repeat split.
Qed.

Lemma produce_then_consume M sizes : forall b ps b1,
  produce M b sizes = Some (ps, b1) ->
  forall c, same_layout b c -> pinput_start_ c = pinput_end_ b ->
  exists c', consume c (zip ps sizes) = Some c' /\
             pinput_start_ c' = pinput_end_ b1.
Proof.
  induction sizes as [|s sizes IH]; intros b ps b1 H c L Hc; cbn [produce] in H.
  - inversion H; subst. exists c. auto.
  - destruct (allocate_input_frame M b s []) as [p b' rest|] eqn:Ea;
      [|discriminate].
    destruct (produce M b' sizes) as [[ps' b'']|] eqn:Ep; [|discriminate].
    inversion H; subst. clear H.
    apply allocate_now_turn in Ea as [Et _].
    destruct (allocate_turn_shape M b _ p b' Et)
      as (Hp & Etail & _ & _ & _ & L').
    pose proof L as (Eb & Es & Em).
    cbn [zip_with consume].
    assert (exists c0, (if pinput_start_ c =? p then c else snd (wraparound c)) = c0
                       /\ pinput_start_ c0 = p /\ same_layout c c0)
      as (c0 & -> & E0 & L0).
    { destruct (Z.eqb_spec (pinput_start_ c) p) as [E|E].
      - exists c. split; [reflexivity|]. split; [exact E | apply same_layout_refl].
      - eexists. split; [reflexivity|]. split; [|repeat split].
        cbn [wraparound snd pinput_start_ set_pinput_start].
        destruct Hp as [->| ->]; congruence. }
    rewrite E0, Z.eqb_refl.
    apply (IH b' ps' b1 Ep).
    + eapply same_layout_trans; [|eapply same_layout_trans; [exact L0|]].
      * destruct L' as (A1 & A2 & A3). repeat split; congruence.
      * repeat split.
    + cbn [discard_input_frame snd pinput_start_ set_pinput_start
           signal_input_consumed record_call].
      rewrite Etail, E0.
      destruct L0 as (B1 & B2 & B3). rewrite B3, Em.
      apply advance_frame_pointer_layout.
      repeat split; congruence.
Qed.

(** X9.  Frames come back in the order they were handed out.  Starting
    from an empty ring (head equal to tail), let the producer obtain any
    number of frames without waiting.  A consumer that then goes through
    them oldest first, calling [wraparound] when the next frame is not at
    its head and [discard_input_frame] with the size that was requested,
    finds every frame at its head and ends with the head at the tail: the
    ring is empty again, and the tail has not moved. *)
Theorem X9_frames_are_consumed_in_order (M : Z) (b : thread_input_buffer)
    (sizes ps : list Z) (b1 : thread_input_buffer) :
  pinput_start_ b = pinput_end_ b ->
  produce M b sizes = Some (ps, b1) ->
  exists c,
    consume b1 (zip ps sizes) = Some c /\
    pinput_start_ c = pinput_end_ c /\
    pinput_end_ c = pinput_end_ b1.
Proof.
  intros He Hp.
  destruct (produce_frame M sizes b ps b1 Hp) as (L & Eh & _).
  destruct (produce_then_consume M sizes b ps b1 Hp b1 L) as (c & Hc & Ec).
  { congruence. }
  destruct (consume_frame _ _ _ Hc) as [Et _].
  exists c. split; [exact Hc|]. split; congruence.
Qed.

(** X9 on an empty ring of size 128 at 4096 with head and tail at offset
    96: a frame of 8 bytes is placed at offset 96, a frame of 40 bytes
    restarts at the base. *)
Lemma X9_frames_are_consumed_in_order_witness :
  let b := mk_buffer 0 128 16 4096 (4096 + 96) (4096 + 96) 4096 ∅ [] in
  exists b1 c,
    produce 1 b [8; 40] = Some ([4096 + 96; 4096], b1) /\
    consume b1 [(4096 + 96, 8); (4096, 40)] = Some c /\
    pinput_start_ c = pinput_end_ c.
Proof.
  intros b.
  pose (b1 := outcome_state
                (allocate_input_frame 1
                   (outcome_state (allocate_input_frame 1 b 8 [])) 40 [])).
  assert (produce 1 b [8; 40] = Some ([4096 + 96; 4096], b1)) as Hp
    by reflexivity.
  destruct (X9_frames_are_consumed_in_order 1 b [8; 40] [4096 + 96; 4096] b1
              eq_refl Hp) as (c & Hc & Ec & _).
  exists b1, c. split; [exact Hp|]. split; [exact Hc | exact Ec].
Defined.

(** *** The destructor, start to finish *)

Lemma drain_loop_blocks sched : forall b b',
  drain_loop sched b = Blocked b' <->
  b' = wait_input_consumed (after_waits b sched) /\
  forall n, (n <= length sched)%nat ->
    pinput_start_ (after_waits b (take n sched))
    <> pinput_end_ (after_waits b (take n sched)).
Proof.
  induction sched as [|ops sched IH]; intros b b'; cbn [drain_loop];
    destruct (Z.eqb_spec (pinput_start_ b) (pinput_end_ b)) as [E|E];
    cbn [negb]; split.
  - discriminate.
  - intros [_ Hn]. exfalso. apply (Hn O); [simpl; lia | exact E].
  - intros H. inversion H; subst. split; [reflexivity|].
    intros n Hn. simpl in Hn. assert (n = O) as -> by lia. exact E.
  - intros [-> _]. reflexivity.
  - discriminate.
  - intros [_ Hn]. exfalso. apply (Hn O); [simpl; lia | exact E].
  - intros H. apply IH in H as [-> Hn]. split; [reflexivity|].
    intros [|n] Hlt; [exact E|]. simpl in Hlt. apply (Hn n). lia.
  - intros [-> Hn]. apply IH. split; [reflexivity|].
    intros n Hlt. apply (Hn (S n)). simpl. lia.
Qed.

(** C6.  The ring's destructor first calls [plog->commit()], then
    repeatedly waits on [input_consumed_event] until
    [pinput_start == pinput_end], and only after that releases the buffer
    memory; the buffer is never freed while [pinput_start != pinput_end].

    For every state [b] and every consumer schedule, with [took] the
    batches of consumer activity the destructor waits through and [mid] the
    calls made between its [commit] and its end:
    - at each of its checks before the last, that is after [commit] and the
      waits for a proper prefix of [took], head differs from tail, and it
      waits again; [mid] releases nothing;
    - if it returns, [took] is what the schedule has lost, head equals tail
      in the state reached by [commit] and the waits for [took], and the
      state it leaves is exactly that state with [free(pbegin)] as one more
      call: nothing but the consumer has moved the head.  The calls are
      [commit], then [mid] with one wait per batch of [took], then
      [free(pbegin)];
    - if it does not return, it has gone through the whole schedule, head
      still differs from tail, and it sits in [wait_input_consumed] in that
      state: the calls are [commit], then [mid], which ends with a wait and
      holds one wait more than there were batches; nothing was released. *)
Theorem C6_destructor_waits_until_drained (b : thread_input_buffer)
    (sched : schedule) :
  exists took mid,
    (forall n, (n < length took)%nat ->
       pinput_start_ (after_waits (commit b) (take n took))
       <> pinput_end_ (after_waits (commit b) (take n took))) /\
    no_free mid /\
    match thread_input_buffer_dtor b sched with
    | Returned _ b' rest =>
        sched = took ++ rest /\
        pinput_start_ (after_waits (commit b) took)
        = pinput_end_ (after_waits (commit b) took) /\
        b' = record_call (CallFree (pbegin_ b)) (after_waits (commit b) took) /\
        calls b' = calls b ++ [CallCommit] ++ mid ++ [CallFree (pbegin_ b)] /\
        count_waits mid = length took
    | Blocked b' =>
        sched = took /\
        pinput_start_ (after_waits (commit b) took)
        <> pinput_end_ (after_waits (commit b) took) /\
        b' = wait_input_consumed (after_waits (commit b) took) /\
        calls b' = calls b ++ [CallCommit] ++ mid /\
        last mid = Some CallEventWait /\
        count_waits mid = S (length took)
    end.
Proof.
  unfold thread_input_buffer_dtor.
  destruct (drain_loop_calls sched (commit b)) as (mid & F & H).
  destruct (drain_loop sched (commit b)) as [[] b' rest|b'] eqn:E.
  - apply drain_loop_returns in E as (took & Hs & Hd & Hb & Hn).
    destruct H as (Hc & _ & took0 & Hs0 & Hw).
    assert (took0 = took) as -> by (apply (app_inv_tail rest); congruence).
    exists took, mid. split; [exact Hn|]. split; [exact F|].
    rewrite commit_calls, <- app_assoc in Hc.
    repeat split; assumption.
  - apply drain_loop_blocks in E as (Hb & Hn).
    destruct H as (Hc & _ & Hl & Hw).
    exists sched, mid. split; [intros n Hlt; apply Hn; lia|]. split; [exact F|].
    rewrite commit_calls, <- app_assoc in Hc.
    repeat split; try assumption.
    pose proof (Hn (length sched) (le_n _)) as Hlast.
    now rewrite firstn_all in Hlast.
Qed.

End RingExtras.

(** * Further properties of the thread-local holder *)

Module ThreadObjectExtras.

Import ThreadObject ThreadObjectFacts.

(** *** Creation happens once *)

(** X10.  Creation is lazy and happens once.  In a consistent process in
    which the allocator keeps its contract, once [get] has returned a
    pointer on a thread every further [get] on that thread returns it
    without changing the process at all: no instance is built and nothing
    is stored, so that it can no longer fail, whatever the [new]-expression
    or the set-specific call would have done. *)
Theorem X10_get_creates_once (h : thread_object) (t : nat) (nr : exn + Z)
    (rc : Z) (p p' : process) (a : Z) :
  consistent p -> allocator_ok p (EvGet h t nr rc) ->
  get h t nr rc p = (Ret a, p') ->
  forall nr' rc', get h t nr' rc' p' = (Ret a, p').
Proof.
  intros Hc Hok Hg nr' rc'.
  destruct (get_ret_origin h t nr rc p a p' Hc Hok Hg) as (Ha & Hs & _).
  now apply get_set.
Qed.

(** X10 on the first [get] of thread 0 in a process with nothing set. *)
Lemma X10_get_creates_once_witness :
  let h := mk_thread_object 7 in
  let p' := snd (get h 0%nat (inr 4096) 0 boot) in
  get h 0%nat (inl BadAlloc) ENOMEM p' = (Ret 4096, p').
Proof.
  intros h p'.
  apply (X10_get_creates_once h 0%nat (inr 4096) 0 boot p' 4096).
  - exact consistent_boot.
  - intros _. split; [discriminate | reflexivity].
  - reflexivity.
Defined.

(** *** A first call that fails *)

(** X11.  When the set-specific call of a first [get] fails, the instance
    that was just built is not deleted: the call throws, the thread's value
    is still unset, the instance stays allocated, and no thread-specific
    value refers to it.  A later [get] on the thread builds another
    instance, and the first one is still allocated after that. *)
Theorem X11_failed_get_loses_the_instance (h : thread_object) (t : nat)
    (a rc : Z) (p : process) :
  consistent p ->
  slots p !! (t, key_ h) = None -> a <> 0 -> objects p !! a = None ->
  rc <> 0 ->
  let p' := snd (get h t (inr a) rc p) in
  (exists e, fst (get h t (inr a) rc p) = Throw e) /\
  slots p' = slots p /\
  objects p' !! a = Some (Some (key_ h)) /\
  (forall t' k', slots p' !! (t', k') <> Some a) /\
  (forall a2, a2 <> 0 -> objects p' !! a2 = None ->
     fst (get h t (inr a2) 0 p') = Ret a2 /\ a2 <> a /\
     objects (snd (get h t (inr a2) 0 p')) !! a = Some (Some (key_ h))).
Proof.
  intros Hc Hs Ha Hfresh Hrc p'. subst p'.
  rewrite (get_unset h t a rc p Hs Ha).
  destruct (Z.eqb_spec rc 0) as [|_]; [contradiction|]. cbn [fst snd slots objects].
  assert (<[a:=Some (key_ h)]> (<[a:=None]> (objects p)) !! a
          = Some (Some (key_ h))) as Hlive by apply lookup_insert_eq.
  split; [destruct (rc =? ENOMEM); eexists; reflexivity|].
  split; [reflexivity|]. split; [exact Hlive|].
  split.
  - intros t' k' H'. destruct (Hc _ _ _ H') as (_ & Ho & _). congruence.
  - intros a2 Ha2 Hf2.
    assert (a2 <> a) as Hne by (intros ->; congruence).
    rewrite get_unset by assumption. cbn [Z.eqb fst snd objects].
    split; [reflexivity|]. split; [exact Hne|].
    rewrite !lookup_insert_ne by congruence. exact Hlive.
Qed.

(** X11 on the first [get] of thread 0, the set-specific call reporting
    [ENOMEM]. *)
Lemma X11_failed_get_loses_the_instance_witness :
  let h := mk_thread_object 7 in
  let p' := snd (get h 0%nat (inr 4096) ENOMEM boot) in
  fst (get h 0%nat (inr 4096) ENOMEM boot) = Throw BadAlloc /\
  slots p' = ∅ /\ objects p' !! 4096 = Some (Some 7%nat).
Proof.
  intros h p'.
  destruct (X11_failed_get_loses_the_instance h 0%nat 4096 ENOMEM boot)
    as (_ & H2 & H3 & _);
    try solve [exact consistent_boot | reflexivity | discriminate].
  split; [reflexivity|]. split; [exact H2 | exact H3].
Defined.

(** *** Thread exit *)

(** X12.  Exit processing of a thread whose value is set, in a consistent
    process.  If restoring the slot fails, the process is killed.
    Otherwise the instance is deleted, the thread's value ends up unset,
    every other instance and every other thread-specific value is as
    before, and the process is consistent again; processing the key once
    more does nothing, so the instance is destroyed exactly once; and the
    next [get] on the thread builds a new instance. *)
Theorem X12_thread_exit_destroys_once (h : thread_object) (t : nat)
    (rc : Z) (p : process) (a : Z) :
  consistent p -> slots p !! (t, key_ h) = Some a ->
  (rc <> 0 -> key_destructor t (key_ h) rc p = None) /\
  (rc = 0 ->
   exists p',
     key_destructor t (key_ h) rc p = Some p' /\
     slots p' !! (t, key_ h) = None /\
     objects p' !! a = None /\
     (forall a', a' <> a -> objects p' !! a' = objects p !! a') /\
     (forall t' k', (t', k') <> (t, key_ h) ->
        slots p' !! (t', k') = slots p !! (t', k')) /\
     consistent p' /\
     (forall rc', key_destructor t (key_ h) rc' p' = Some p') /\
     (forall a2, a2 <> 0 -> fst (get h t (inr a2) 0 p') = Ret a2)).
Proof.
  intros Hc Hs. pose proof (key_destructor_set t (key_ h) rc p a Hc Hs) as K.
  split.
  - intros Hrc. destruct (Z.eqb_spec rc 0); [contradiction|exact K].
  - intros ->. cbn [Z.eqb] in K. eexists. split; [exact K|].
    cbn [slots objects].
    assert (delete (t, key_ h) (slots p) !! (t, key_ h) = None) as Hnone
      by apply lookup_delete_eq.
    split; [exact Hnone|].
    split; [apply lookup_delete_eq|].
    split; [intros a' Hne; now apply lookup_delete_ne|].
    split; [intros t' k' Hne; apply lookup_delete_ne; congruence|].
    split; [eapply key_destructor_consistent; eauto|].
    split.
    + intros rc'. now apply key_destructor_unset.
    + intros a2 Ha2. rewrite get_unset by assumption. reflexivity.
Qed.

(** X12 after the first [get] of thread 0. *)
Lemma X12_thread_exit_destroys_once_witness :
  let h := mk_thread_object 7 in
  let p := snd (get h 0%nat (inr 4096) 0 boot) in
  exists p',
    key_destructor 0%nat 7%nat 0 p = Some p' /\
    slots p' !! (0%nat, 7%nat) = None /\ objects p' !! 4096 = None.
Proof.
  intros h p.
  assert (consistent p) as Hc.
  { apply (get_consistent h 0%nat (inr 4096) 0 boot consistent_boot).
    intros _. split; [discriminate | reflexivity]. }
  assert (slots p !! (0%nat, key_ h) = Some 4096) as Hs by reflexivity.
  destruct (X12_thread_exit_destroys_once h 0%nat 0 p 4096 Hc Hs) as [_ H].
  destruct (H eq_refl) as (p' & H1 & H2 & H3 & _).
  exists p'. split; [exact H1|]. split; [exact H2 | exact H3].
Defined.

(** *** What every run keeps *)

(** X13.  From a process with no thread-specific value set, along any run
    of [get] calls and exit processing in which the allocator keeps its
    contract and the process is not killed: every thread-specific value that
    is set is non-null and is the address of a live instance whose [key]
    member is the key it is stored under, and no two slots hold the same
    instance. *)
Theorem X13_slots_hold_live_instances (evs : list event) (rs : list result)
    (p : process) :
  run_ok boot evs -> run boot evs = Some (rs, p) ->
  forall t k a, slots p !! (t, k) = Some a ->
    a <> 0 /\ objects p !! a = Some (Some k) /\
    forall t' k', slots p !! (t', k') = Some a -> (t', k') = (t, k).
Proof.
  intros Hok Hr.
  exact (run_consistent evs boot rs p consistent_boot Hok Hr).
Qed.

(** X13 on a run of two threads, the first of which exits. *)
Lemma X13_slots_hold_live_instances_witness :
  let h := mk_thread_object 7 in
  let evs := [EvGet h 0%nat (inr 4096) 0; EvGet h 1%nat (inr 8192) 0;
              EvKeyDestructor 0%nat 7%nat 0] in
  exists rs p,
    run boot evs = Some (rs, p) /\
    slots p !! (1%nat, 7%nat) = Some 8192 /\
    objects p !! 8192 = Some (Some 7%nat).
Proof.
  intros h evs.
  destruct (run boot evs) as [[rs p]|] eqn:Hr; [|discriminate Hr].
  assert (run_ok boot evs) as Hok.
  { simpl. split; [intros _; split; [discriminate|reflexivity]|].
    split; [intros _; split; [discriminate|reflexivity]|].
    split; exact I. }
  assert (slots p !! (1%nat, 7%nat) = Some 8192) as Hs.
  { vm_compute in Hr. injection Hr as _ <-. reflexivity. }
  destruct (X13_slots_hold_live_instances evs rs p Hok Hr 1%nat 7%nat 8192 Hs)
    as (_ & Ho & _).
  exists rs, p. split; [reflexivity|]. split; [exact Hs | exact Ho].
Defined.

(** *** Destroying the holder *)

Lemma key_delete_lookup p k t' k' :
  slots (pthread_key_delete p k) !! (t', k')
  = if decide (k' = k) then None else slots p !! (t', k').
Proof.
  unfold pthread_key_delete. cbn [slots].
  destruct (decide (k' = k)) as [->|Hne].
  - apply map_lookup_filter_None. right. intros x _ H. now apply H.
  - destruct (slots p !! (t', k')) as [x|] eqn:E.
    + apply map_lookup_filter_Some. split; [exact E | exact Hne].
    + apply map_lookup_filter_None. now left.
Qed.

(** X14.  The destructor of the holder, run on thread [t] in a consistent
    process, deletes the instance of [t] only.  Afterwards no value is
    stored under the holder's key and the values under other keys are as
    before; the instance of [t], if it had one, is gone; the instances the
    other threads created through the holder are still allocated, and no
    thread-specific value leads to them any more.  The process stays
    consistent. *)
Theorem X14_holder_destructor_frees_one_instance (h : thread_object)
    (t : nat) (p : process) :
  consistent p ->
  let p' := thread_object_dtor h t p in
  (forall t', slots p' !! (t', key_ h) = None) /\
  (forall t' k', k' <> key_ h -> slots p' !! (t', k') = slots p !! (t', k')) /\
  (forall a, slots p !! (t, key_ h) = Some a -> objects p' !! a = None) /\
  (forall t' a', t' <> t -> slots p !! (t', key_ h) = Some a' ->
     objects p' !! a' = Some (Some (key_ h)) /\
     forall t'' k'', slots p' !! (t'', k'') <> Some a') /\
  consistent p'.
Proof.
  intros Hc p'.
  assert (forall t' k', slots p' !! (t', k')
            = if decide (k' = key_ h) then None else slots p !! (t', k')) as HL.
  { intros t' k'. subst p'. unfold thread_object_dtor.
    now rewrite key_delete_lookup. }
  assert (objects p' =
          match slots p !! (t, key_ h) with
          | Some a => delete a (objects p)
          | None => objects p
          end) as HO.
  { subst p'. unfold thread_object_dtor, pthread_key_delete.
    cbn [objects]. destruct (slots p !! (t, key_ h)) as [a|] eqn:E.
    - destruct (Hc _ _ _ E) as (Ha & _).
      rewrite (getspecific_set _ _ _ _ E).
      destruct (Z.eqb_spec a 0); [contradiction|reflexivity].
    - now rewrite (getspecific_unset _ _ _ E). }
  assert (forall t' k' a', (t', k') <> (t, key_ h) ->
            slots p !! (t', k') = Some a' ->
            objects p' !! a' = Some (Some k')) as Hkeep.
  { intros t' k' a' Hne H'. destruct (Hc _ _ _ H') as (_ & Ho & Hinj).
    rewrite HO. destruct (slots p !! (t, key_ h)) as [a|] eqn:E; [|exact Ho].
    rewrite lookup_delete_ne; [exact Ho|].
    intros ->. apply Hne. symmetry. now apply Hinj. }
  split; [|split; [|split; [|split]]].
  - intros t'. rewrite HL. destruct (decide _); [reflexivity|contradiction].
  - intros t' k' Hne. rewrite HL. destruct (decide _); [contradiction|reflexivity].
  - intros a E. rewrite HO, E. apply lookup_delete_eq.
  - intros t' a' Hne H'. split.
    + apply (Hkeep t' (key_ h) a'); [congruence | exact H'].
    + intros t'' k'' H''. rewrite HL in H''.
      destruct (decide (k'' = key_ h)) as [|Hk]; [discriminate|].
      destruct (Hc _ _ _ H') as (_ & _ & Hinj).
      apply Hinj in H''. congruence.
  - intros t' k' a' H'. rewrite HL in H'.
    destruct (decide (k' = key_ h)) as [|Hk]; [discriminate|].
    destruct (Hc _ _ _ H') as (Ha' & _ & Hinj).
    split; [exact Ha'|]. split.
    + apply (Hkeep t' k' a'); [congruence | exact H'].
    + intros t'' k'' H''. rewrite HL in H''.
      destruct (decide (k'' = key_ h)); [discriminate|]. now apply Hinj.
Qed.

(** X14 after threads 0 and 1 have each obtained their instance: the
    holder is destroyed on thread 0. *)
Lemma X14_holder_destructor_frees_one_instance_witness :
  let h := mk_thread_object 7 in
  let p := snd (get h 1%nat (inr 8192) 0 (snd (get h 0%nat (inr 4096) 0 boot))) in
  let p' := thread_object_dtor h 0%nat p in
  objects p' !! 4096 = None /\ objects p' !! 8192 = Some (Some 7%nat) /\
  slots p' !! (1%nat, 7%nat) = None.
Proof.
  intros h p p'.
  assert (consistent p) as Hc.
  { apply get_consistent.
    - apply (get_consistent h 0%nat (inr 4096) 0 boot consistent_boot).
      intros _. split; [discriminate | reflexivity].
    - intros _. split; [discriminate | reflexivity]. }
  destruct (X14_holder_destructor_frees_one_instance h 0%nat p Hc)
    as (H1 & _ & H3 & H4 & _).
  split; [apply H3; reflexivity|].
  split; [apply (H4 1%nat 8192); [discriminate | reflexivity] | apply H1].
Defined.

(** *** The index sequence *)

Lemma make_index_sequence_helper_seq depth : forall Pos N Seq,
  (Pos <= N)%nat -> (N - Pos <= depth)%nat ->
  make_index_sequence_helper depth Pos N Seq
  = Some (Seq ++ seq Pos (N - Pos)).
Proof.
  induction depth as [|depth IH]; intros Pos N Seq Hle Hd.
  - assert (Pos = N) as -> by lia. cbn [make_index_sequence_helper].
    rewrite Nat.eqb_refl, Nat.sub_diag. simpl. now rewrite app_nil_r.
  - cbn [make_index_sequence_helper].
    destruct (Nat.eqb_spec Pos N) as [->|Hne].
    + rewrite Nat.sub_diag. simpl. now rewrite app_nil_r.
    + rewrite IH by lia. rewrite <- app_assoc.
      replace (N - Pos)%nat with (S (N - S Pos)) by lia. reflexivity.
Qed.

Lemma make_index_sequence_helper_short depth : forall Pos N Seq,
  (Pos <= N)%nat -> (depth < N - Pos)%nat ->
  make_index_sequence_helper depth Pos N Seq = None.
Proof.
  induction depth as [|depth IH]; intros Pos N Seq Hle Hd;
    cbn [make_index_sequence_helper];
    destruct (Nat.eqb_spec Pos N) as [->|Hne]; try lia; [reflexivity|].
  apply IH; lia.
Qed.

Lemma expand_args_seq {A : Type} (args : list A) : forall pre,
  expand_args (pre ++ args) (seq (length pre) (length args)) = Some args.
Proof.
  induction args as [|x args IH]; intros pre; [reflexivity|].
  cbn [length seq expand_args].
  rewrite List.nth_error_app2, Nat.sub_diag by lia. cbn [nth_error].
  specialize (IH (pre ++ [x])).
  rewrite <- app_assoc, length_app, Nat.add_1_r in IH. cbn [app] in IH.
  now rewrite IH.
Qed.

(** X15.  [make_index_sequence<N>::type] is [index_sequence<0, ..., N-1>],
    reached after [N] steps of the helper template (and not with fewer), so
    that the pack expansion in [create], over the indices of the captured
    tuple, hands the captured arguments to the constructor of the instance
    one by one, in the order they were given. *)
Theorem X15_index_sequence_enumerates_the_arguments {A : Type}
    (depth : nat) (args_ : list A) :
  let N := length args_ in
  ((N <= depth)%nat ->
   make_index_sequence depth N = Some (seq 0 N) /\
   expand_args args_ (seq 0 N) = Some args_) /\
  ((depth < N)%nat -> make_index_sequence depth N = None).
Proof.
  intros N. unfold make_index_sequence. split.
  - intros Hd. split.
    + rewrite make_index_sequence_helper_seq by lia.
      now rewrite Nat.sub_0_r.
    + apply (expand_args_seq args_ []).
  - intros Hd. apply make_index_sequence_helper_short; lia.
Qed.

(** X15 for the three constructor arguments of the ring. *)
Lemma X15_index_sequence_enumerates_the_arguments_witness :
  make_index_sequence 3 3 = Some [0; 1; 2]%nat /\
  expand_args [10; 64; 16] [0; 1; 2]%nat = Some [10; 64; 16] /\
  make_index_sequence 2 3 = None.
Proof.
  destruct (X15_index_sequence_enumerates_the_arguments 3 [10; 64; 16])
    as [H _].
  destruct (H ltac:(simpl; lia)) as [H1 H2].
  destruct (X15_index_sequence_enumerates_the_arguments 2 [10; 64; 16])
    as [_ H3].
  split; [exact H1|]. split; [exact H2 | apply H3; simpl; lia].
Defined.

End ThreadObjectExtras.
